(** * fighting-tomatoes: the two helper scripts

    [packages/backend/check-fights.py] reads a JSON payload from standard
    input and prints a status report; [extract_context.py] copies a list of
    project files into a staging directory.  Both are embedded below as
    Rocq functions and their documented behaviour is proved about those
    functions. *)

From Stdlib Require Import Ascii String ZArith.
From stdpp Require Import base option list strings pretty gmap.

Open Scope string_scope.
Set Warnings "-register-all".

(** ** Python values and exceptions shared by both scripts *)

(** A value as [json.load] builds it.  A [str] is a [string] whose
    characters stand for code points; a [float] is kept as the text Python's
    [repr] gives it, which identifies the float; a [dict] keeps its items in
    insertion order, with distinct keys. *)
Inductive value :=
  | VNone
  | VBool (b : bool)
  | VInt (n : Z)
  | VFloat (repr : string)
  | VStr (s : string)
  | VList (xs : list value)
  | VDict (items : list (string * value)).

Inductive exn :=
  | JSONDecodeError
  | KeyError (key : string)
  | TypeError
  | ValueError
  | OSError
  | RecursionError.

(** An uncaught exception ends the interpreter with status 1. *)
Definition exit_status (raised : option exn) : Z :=
  match raised with None => 0 | Some _ => 1 end.

(** Evaluation of an expression: its value, or the exception it raises. *)
Definition raise {A} (e : exn) : exn + A := inl e.

#[global] Instance eval_ret : MRet (sum exn) := λ A a, inr a.
#[global] Instance eval_bind : MBind (sum exn) := λ A B f m,
  match m with inl e => inl e | inr a => f a end.

(** Execution of statements: the lines printed so far are threaded through,
    and survive an exception.  Each element of the output is the text of one
    [print] call. *)
Definition script (A : Type) : Type := list string → list string * (exn + A).

#[global] Instance script_ret : MRet script := λ A a out, (out, inr a).
#[global] Instance script_bind : MBind script := λ A B f m out,
  match m out with
  | (out', inl e) => (out', inl e)
  | (out', inr a) => f a out'
  end.

Definition eval {A} (r : exn + A) : script A := λ out, (out, r).
Definition print (s : string) : script unit := λ out, ((out ++ [s])%list, inr tt).

Fixpoint for_each {A} (body : A → script unit) (xs : list A) : script unit :=
  match xs with
  | [] => mret tt
  | x :: rest => body x ;; for_each body rest
  end.

(** What the operating system sees of a finished process. *)
Record outcome := Outcome { stdout : list string; raised : option exn }.

Definition run_script (m : script unit) : outcome :=
  match m [] with
  | (out, inl e) => Outcome out (Some e)
  | (out, inr _) => Outcome out None
  end.

Module CheckFights.

(** *** Built-in operations the script applies to decoded values *)

Fixpoint assoc (k : string) (items : list (string * value)) : option value :=
  match items with
  | [] => None
  | (k', v) :: rest => if String.eqb k k' then Some v else assoc k rest
  end.

(** [v[k]] for a string key [k]. *)
Definition subscript (v : value) (k : string) : exn + value :=
  match v with
  | VDict items =>
      match assoc k items with Some x => mret x | None => raise (KeyError k) end
  | _ => raise TypeError
  end.

(** [bool(v)]. *)
Definition truthy (v : value) : bool :=
  match v with
  | VNone => false
  | VBool b => b
  | VInt n => negb (n =? 0)%Z
  | VFloat r => negb (String.eqb r "0.0" || String.eqb r "-0.0")
  | VStr s => negb (String.eqb s EmptyString)
  | VList xs => match xs with [] => false | _ => true end
  | VDict items => match items with [] => false | _ => true end
  end.

(** [len(v)]. *)
Definition len (v : value) : exn + nat :=
  match v with
  | VList xs => mret (length xs)
  | VDict items => mret (length items)
  | VStr s => mret (String.length s)
  | _ => raise TypeError
  end.

Fixpoint chars (s : string) : list value :=
  match s with
  | EmptyString => []
  | String c rest => VStr (String c EmptyString) :: chars rest
  end.

(** The elements [for f in v] runs over. *)
Definition iter (v : value) : exn + list value :=
  match v with
  | VList xs => mret xs
  | VDict items => mret (map (λ kv, VStr kv.1) items)
  | VStr s => mret (chars s)
  | _ => raise TypeError
  end.

(** [v[:n]].  A dict cannot be sliced: the lookup of the slice object
    fails (as a [TypeError] up to Python 3.11). *)
Definition slice_to (n : nat) (v : value) : exn + value :=
  match v with
  | VList xs => mret (VList (take n xs))
  | VStr s => mret (VStr (String.substring 0 (Nat.min n (String.length s)) s))
  | _ => raise TypeError
  end.

(** *** Text of a value inside an f-string *)

Definition backslash : ascii := ascii_of_N 92.
Definition dquote : ascii := ascii_of_N 34.
Definition squote : ascii := ascii_of_N 39.
Definition newline : string := String (ascii_of_N 10) EmptyString.

Definition hex_digit (n : N) : ascii :=
  match n with
  | 0 => "0" | 1 => "1" | 2 => "2" | 3 => "3" | 4 => "4" | 5 => "5"
  | 6 => "6" | 7 => "7" | 8 => "8" | 9 => "9" | 10 => "a" | 11 => "b"
  | 12 => "c" | 13 => "d" | 14 => "e" | _ => "f"
  end%N%char.

Definition printable (n : N) : bool :=
  (32 <=? n)%N && negb (n =? 127)%N
  && negb ((128 <=? n)%N && (n <=? 160)%N) && negb (n =? 173)%N.

(** One character of [repr(s)], for the quote character [q] in use. *)
Definition repr_char (q c : ascii) : string :=
  let n := N_of_ascii c in
  if Ascii.eqb c q || Ascii.eqb c backslash
  then String backslash (String c EmptyString)
  else if (n =? 9)%N then String backslash "t"
  else if (n =? 10)%N then String backslash "n"
  else if (n =? 13)%N then String backslash "r"
  else if printable n then String c EmptyString
  else String backslash (String "x"%char
         (String (hex_digit (n / 16)) (String (hex_digit (n mod 16)) EmptyString))).

Fixpoint occurs (c : ascii) (s : string) : bool :=
  match s with
  | EmptyString => false
  | String c' rest => Ascii.eqb c c' || occurs c rest
  end.

Fixpoint repr_chars (q : ascii) (s : string) : string :=
  match s with
  | EmptyString => EmptyString
  | String c rest => repr_char q c +:+ repr_chars q rest
  end.

(** [repr(s)] of a str: single quotes, unless the text has a single quote
    and no double quote. *)
Definition repr_str (s : string) : string :=
  let q := if occurs squote s && negb (occurs dquote s) then dquote else squote in
  String q (repr_chars q s) +:+ String q EmptyString.

Fixpoint join (sep : string) (parts : list string) : string :=
  match parts with
  | [] => EmptyString
  | [p] => p
  | p :: rest => p +:+ sep +:+ join sep rest
  end.

Fixpoint py_repr (v : value) : string :=
  match v with
  | VNone => "None"
  | VBool true => "True"
  | VBool false => "False"
  | VInt n => pretty n
  | VFloat r => r
  | VStr s => repr_str s
  | VList xs => "[" +:+ join ", " (map py_repr xs) +:+ "]"
  | VDict items =>
      "{" +:+ join ", " (map (λ kv, repr_str kv.1 +:+ ": " +:+ py_repr kv.2) items)
      +:+ "}"
  end.

(** [format(v, '')], the text an f-string field [{v}] contributes. *)
Definition py_str (v : value) : string :=
  match v with
  | VStr s => s
  | _ => py_repr v
  end.

(** *** The script *)

(** [[f for f in xs if cond(f)]]: the condition is evaluated element by
    element, and the first exception ends the comprehension. *)
Fixpoint comprehension (cond : value → exn + bool) (xs : list value)
  : exn + list value :=
  match xs with
  | [] => mret []
  | f :: rest =>
      c ← cond f;
      kept ← comprehension cond rest;
      mret (if c : bool then f :: kept else kept)
  end.

Definition has_started (f : value) : exn + bool :=
  v ← subscript f "hasStarted"; mret (truthy v).

Definition is_complete (f : value) : exn + bool :=
  v ← subscript f "isComplete"; mret (truthy v).

(** [f['hasStarted'] and not f['isComplete']]: [and] looks at its second
    operand only when the first is truthy. *)
Definition is_live (f : value) : exn + bool :=
  s ← subscript f "hasStarted";
  if truthy s then c ← subscript f "isComplete"; mret (negb (truthy c))
  else mret false.

Definition count (cond : value → exn + bool) (fights : value) : exn + nat :=
  xs ← iter fights; kept ← comprehension cond xs; mret (length kept).

(** The f-string of the last line; its fields are evaluated left to right. *)
Definition fight_line (f : value) : exn + string :=
  f1 ← subscript f "fighter1"; a ← subscript f1 "firstName";
  f1 ← subscript f "fighter1"; b ← subscript f1 "lastName";
  f2 ← subscript f "fighter2"; c ← subscript f2 "firstName";
  f2 ← subscript f "fighter2"; d ← subscript f2 "lastName";
  s ← subscript f "hasStarted";
  e ← subscript f "isComplete";
  mret ("  " +:+ py_str a +:+ " " +:+ py_str b +:+ " vs " +:+ py_str c
        +:+ " " +:+ py_str d +:+ ": hasStarted=" +:+ py_str s
        +:+ ", complete=" +:+ py_str e).

Definition print_fight (f : value) : script unit :=
  line ← eval (fight_line f); print line.

Section Script.
(** [json.load] applied to the text of standard input: the standard
    library's decoder, a parameter of the script. *)
Variable json_load : string → exn + value.

Definition main (stdin : string) : script unit :=
  response ← eval (json_load stdin);
  fights ← eval (subscript response "fights");
  print ("Fight statuses in database:" +:+ newline);;
  total ← eval (len fights);
  print ("Total fights: " +:+ pretty total);;
  started ← eval (count has_started fights);
  print ("Has started: " +:+ pretty started);;
  complete ← eval (count is_complete fights);
  print ("Complete: " +:+ pretty complete);;
  live ← eval (count is_live fights);
  print ("Live (started but not complete): " +:+ pretty live);;
  print (newline +:+ "Main card (first 5):");;
  first5 ← eval (s ← slice_to 5 fights; iter s);
  for_each print_fight first5.

Definition check_fights (stdin : string) : outcome := run_script (main stdin).
End Script.

(** *** Vocabulary of the specification *)

(** Field [k] of a record, when [f] is an object that has it. *)
Definition field (k : string) (f : value) : option value :=
  match f with VDict items => assoc k items | _ => None end.

Definition has_field (k : string) (f : value) : bool :=
  match field k f with Some _ => true | None => false end.

(** Field [k] is there and truthy. *)
Definition flag (k : string) (f : value) : bool :=
  match field k f with Some v => truthy v | None => false end.

Definition count_if (p : value → bool) (xs : list value) : nat :=
  length (List.filter p xs).

Definition is_record (f : value) : bool :=
  match f with VDict _ => true | _ => false end.

Definition has_flags (f : value) : bool :=
  has_field "hasStarted" f && has_field "isComplete" f.

(** A fighter with both names. *)
Definition has_names (fighter : option value) : bool :=
  match fighter with
  | Some p => is_record p && has_field "firstName" p && has_field "lastName" p
  | None => false
  end.

(** A record with all the fields the report reads. *)
Definition well_formed (f : value) : bool :=
  has_flags f && has_names (field "fighter1" f) && has_names (field "fighter2" f).



(** The six lines above the main card, with the counts the specification
    defines. *)
Definition summary (fights : list value) : list string :=
  [ "Fight statuses in database:" +:+ newline;
    "Total fights: " +:+ pretty (length fights);
    "Has started: " +:+ pretty (count_if (flag "hasStarted") fights);
    "Complete: " +:+ pretty (count_if (flag "isComplete") fights);
    "Live (started but not complete): "
      +:+ pretty (count_if (λ f, flag "hasStarted" f && negb (flag "isComplete" f)) fights);
    newline +:+ "Main card (first 5):" ].

(** The main-card lines of the records up to the first one whose line
    cannot be built, and the exception that one raises. *)
Fixpoint card_lines (xs : list value) : list string * option exn :=
  match xs with
  | [] => ([], None)
  | f :: rest =>
      match fight_line f with
      | inl e => ([], Some e)
      | inr line => let (lines, r) := card_lines rest in (line :: lines, r)
      end
  end.

End CheckFights.

(** ** A decoder for a fragment of JSON

    Objects, arrays, strings with the one-letter escapes, integers and the
    three literals.  It stands in for [json.load] where a statement is
    evaluated on a concrete text. *)
Module Json.

Import CheckFights.

Definition is_ws (c : ascii) : bool :=
  let n := N_of_ascii c in
  (n =? 32)%N || (n =? 9)%N || (n =? 10)%N || (n =? 13)%N.

Fixpoint skip_ws (s : string) : string :=
  match s with
  | String c rest => if is_ws c then skip_ws rest else s
  | EmptyString => s
  end.

Definition digit (c : ascii) : option Z :=
  let n := N_of_ascii c in
  if (48 <=? n)%N && (n <=? 57)%N then Some (Z.of_N n - 48)%Z else None.

Fixpoint digits (acc : Z) (s : string) : Z * string :=
  match s with
  | String c rest =>
      match digit c with
      | Some d => digits (10 * acc + d)%Z rest
      | None => (acc, s)
      end
  | EmptyString => (acc, s)
  end.

Definition starts_fraction (s : string) : bool :=
  match s with
  | String c _ => Ascii.eqb c "." || Ascii.eqb c "e" || Ascii.eqb c "E"
  | EmptyString => false
  end.

(** An integer without sign: a lone [0], or digits not starting with [0]. *)
Definition natural (s : string) : option (Z * string) :=
  match s with
  | String c rest =>
      match digit c with
      | Some 0%Z => if starts_fraction rest then None else Some (0%Z, rest)
      | Some d =>
          let (n, rest') := digits d rest in
          if starts_fraction rest' then None else Some (n, rest')
      | None => None
      end
  | EmptyString => None
  end.

Definition escape (c : ascii) : option ascii :=
  if Ascii.eqb c dquote then Some dquote
  else if Ascii.eqb c backslash then Some backslash
  else if Ascii.eqb c "/" then Some "/"%char
  else if Ascii.eqb c "b" then Some (ascii_of_N 8)
  else if Ascii.eqb c "f" then Some (ascii_of_N 12)
  else if Ascii.eqb c "n" then Some (ascii_of_N 10)
  else if Ascii.eqb c "r" then Some (ascii_of_N 13)
  else if Ascii.eqb c "t" then Some (ascii_of_N 9)
  else None.

(** The text of a string up to its closing quote, and what follows. *)
Fixpoint str_body (s : string) : option (string * string) :=
  match s with
  | EmptyString => None
  | String c rest =>
      if Ascii.eqb c dquote then Some (EmptyString, rest)
      else if Ascii.eqb c backslash then
        match rest with
        | String e rest' =>
            match escape e, str_body rest' with
            | Some c', Some (t, r) => Some (String c' t, r)
            | _, _ => None
            end
        | EmptyString => None
        end
      else if (N_of_ascii c <? 32)%N then None
      else
        match str_body rest with
        | Some (t, r) => Some (String c t, r)
        | None => None
        end
  end.

Fixpoint strip (lit s : string) : option string :=
  match lit, s with
  | EmptyString, _ => Some s
  | String a lit', String b s' => if Ascii.eqb a b then strip lit' s' else None
  | String _ _, EmptyString => None
  end.

(** [d[k] = v] on the items of a dict: a repeated key keeps its place and
    takes the later value. *)
Fixpoint dict_set (k : string) (v : value) (items : list (string * value))
  : list (string * value) :=
  match items with
  | [] => [(k, v)]
  | (k', v') :: rest =>
      if String.eqb k k' then (k, v) :: rest else (k', v') :: dict_set k v rest
  end.

Definition scalar (s : string) : option (value * string) :=
  match strip "null" s, strip "true" s, strip "false" s with
  | Some r, _, _ => Some (VNone, r)
  | _, Some r, _ => Some (VBool true, r)
  | _, _, Some r => Some (VBool false, r)
  | _, _, _ =>
      match s with
      | String c rest =>
          if Ascii.eqb c "-" then
            match natural rest with
            | Some (n, r) => Some (VInt (- n), r)
            | None => None
            end
          else
            match natural s with
            | Some (n, r) => Some (VInt n, r)
            | None => None
            end
      | EmptyString => None
      end
  end.

Fixpoint parse (fuel : nat) (s : string) : option (value * string) :=
  match fuel with
  | 0 => None
  | S fuel =>
      match skip_ws s with
      | String c rest =>
          if Ascii.eqb c "[" then
            match skip_ws rest with
            | String c' rest' =>
                if Ascii.eqb c' "]" then Some (VList [], rest')
                else elements fuel rest []
            | EmptyString => None
            end
          else if Ascii.eqb c "{" then
            match skip_ws rest with
            | String c' rest' =>
                if Ascii.eqb c' "}" then Some (VDict [], rest')
                else members fuel rest []
            | EmptyString => None
            end
          else if Ascii.eqb c dquote then
            match str_body rest with
            | Some (t, r) => Some (VStr t, r)
            | None => None
            end
          else scalar (String c rest)
      | EmptyString => None
      end
  end
with elements (fuel : nat) (s : string) (acc : list value)
  : option (value * string) :=
  match fuel with
  | 0 => None
  | S fuel =>
      match parse fuel s with
      | Some (v, r) =>
          match skip_ws r with
          | String c r' =>
              if Ascii.eqb c "," then elements fuel r' (acc ++ [v])%list
              else if Ascii.eqb c "]" then Some (VList (acc ++ [v])%list, r')
              else None
          | EmptyString => None
          end
      | None => None
      end
  end
with members (fuel : nat) (s : string) (acc : list (string * value))
  : option (value * string) :=
  match fuel with
  | 0 => None
  | S fuel =>
      match skip_ws s with
      | String q r =>
          if Ascii.eqb q dquote then
            match str_body r with
            | Some (k, r) =>
                match skip_ws r with
                | String c r =>
                    if Ascii.eqb c ":" then
                      match parse fuel r with
                      | Some (v, r) =>
                          match skip_ws r with
                          | String c r' =>
                              if Ascii.eqb c "," then members fuel r' (dict_set k v acc)
                              else if Ascii.eqb c "}" then Some (VDict (dict_set k v acc), r')
                              else None
                          | EmptyString => None
                          end
                      | None => None
                      end
                    else None
                | EmptyString => None
                end
            | None => None
            end
          else None
      | EmptyString => None
      end
  end.

Definition loads (s : string) : exn + value :=
  match parse (S (String.length s)) s with
  | Some (v, r) =>
      match skip_ws r with
      | EmptyString => inr v
      | String _ _ => raise JSONDecodeError
      end
  | None => raise JSONDecodeError
  end.

(** JSON texts are written below with single quotes for the double ones. *)
Fixpoint json (s : string) : string :=
  match s with
  | EmptyString => EmptyString
  | String c rest => String (if Ascii.eqb c squote then dquote else c) (json rest)
  end.

End Json.

Module ExtractContext.

Local Open Scope list_scope.

(** *** Paths and the file system *)

(** A path is the list of its components below the anchor. *)
Definition path := list string.

(** What [copy2] carries over besides the data. *)
Record stat := Stat { st_mode : N; st_mtime : Z }.

(** Regular files and directories; the file system is its root directory. *)
Inductive node :=
  | File (data : string) (st : stat)
  | Dir (entries : gmap string node).

Fixpoint lookup_path (p : path) (n : node) : option node :=
  match p with
  | [] => Some n
  | name :: rest =>
      match n with
      | Dir entries => entries !! name ≫= lookup_path rest
      | File _ _ => None
      end
  end.

Definition is_dir_node (n : option node) : bool :=
  match n with Some (Dir _) => true | _ => false end.

Definition is_file_node (n : option node) : bool :=
  match n with Some (File _ _) => true | _ => false end.

Definition path_exists (p : path) (fs : node) : bool :=
  match lookup_path p fs with Some _ => true | None => false end.
Definition is_dir (p : path) (fs : node) : bool := is_dir_node (lookup_path p fs).
Definition is_file (p : path) (fs : node) : bool := is_file_node (lookup_path p fs).

(** [PurePath.relative_to]: the components of [p] after [root]. *)
Fixpoint relative_to (p root : path) : exn + path :=
  match root, p with
  | [], _ => mret p
  | r :: root', c :: p' =>
      if String.eqb r c then relative_to p' root' else raise ValueError
  | _ :: _, [] => raise ValueError
  end.

Definition parent (p : path) : path := removelast p.
Definition basename (p : path) : string := List.last p EmptyString.

(** [Path.mkdir(parents=True, exist_ok=True)] and [os.makedirs(exist_ok=True)]:
    every missing directory on the way is created; a regular file on the
    way, or at the end, makes it fail. *)
Fixpoint mkdir_p (p : path) (n : node) : exn + node :=
  match n with
  | File _ _ => raise OSError
  | Dir entries =>
      match p with
      | [] => mret n
      | name :: rest =>
          child ← mkdir_p rest (default (Dir ∅) (entries !! name));
          mret (Dir (<[name := child]> entries))
      end
  end.

(** Opening [p] for writing and filling it: the parent must be a directory
    and [p] itself must not be one. *)
Fixpoint write_file (p : path) (data : string) (st : stat) (n : node)
  : exn + node :=
  match n with
  | File _ _ => raise OSError
  | Dir entries =>
      match p with
      | [] => raise OSError
      | [name] =>
          if is_dir_node (entries !! name) then raise OSError
          else mret (Dir (<[name := File data st]> entries))
      | name :: rest =>
          match entries !! name with
          | Some child =>
              child' ← write_file rest data st child;
              mret (Dir (<[name := child']> entries))
          | None => raise OSError
          end
      end
  end.

(** [os.scandir]: the names in a directory, each with its [is_dir()]. *)
Definition scandir (p : path) (fs : node) : exn + list (string * bool) :=
  match lookup_path p fs with
  | Some (Dir entries) =>
      mret (map (λ kv, (kv.1, is_dir_node (Some kv.2))) (map_to_list entries))
  | _ => raise OSError
  end.

(** [shutil.copy2]: into [dst], or under the source's name inside [dst]
    when [dst] is a directory; copying a file onto itself is refused. *)
Definition copy2 (src dst : path) (fs : node) : exn + node :=
  let dst := if is_dir dst fs then dst ++ [basename src] else dst in
  match lookup_path src fs with
  | Some (File data st) =>
      if decide (src = dst) then raise OSError else write_file dst data st fs
  | _ => raise OSError
  end.

(** Running [f] over a list, handing the file system from one call to the
    next. *)
Fixpoint thread {A} (f : A → node → exn + node) (xs : list A) (fs : node)
  : exn + node :=
  match xs with
  | [] => mret fs
  | x :: rest => fs' ← f x fs; thread f rest fs'
  end.

(** The body of the loop in [shutil.copytree]: a directory entry goes to
    the recursive call [rec], any other to [copy2]. *)
Definition copy_entry (rec : path → path → node → exn + node)
    (src dst : path) (entry : string * bool) : node → exn + node :=
  let srcname := src ++ [entry.1] in
  let dstname := dst ++ [entry.1] in
  if entry.2 then rec srcname dstname else copy2 srcname dstname.

(** [shutil.copytree(src, dst, dirs_exist_ok=True)].  The directory is
    listed, [dst] is made, and the entries are copied one by one, the
    directories by a recursive call; [depth] is the number of nested calls
    the interpreter still allows.  A failed entry makes the whole call fail
    (after the remaining entries, which a failed run's result does not
    show). *)
Fixpoint copytree (depth : nat) (src dst : path) (fs : node) : exn + node :=
  match depth with
  | 0 => raise RecursionError
  | S depth =>
      entries ← scandir src fs;
      fs ← mkdir_p dst fs;
      thread (copy_entry (copytree depth) src dst) entries fs
  end.

(** *** The script *)

Definition copy_with_structure (depth : nat) (src dest_root rel_root : path)
    (fs : node) : exn + node :=
  rel_path ← relative_to src rel_root;
  let dest_path := dest_root ++ rel_path in
  if is_dir src fs then copytree depth src dest_path fs
  else if is_file src fs then
    fs ← mkdir_p (parent dest_path) fs;
    copy2 src dest_path fs
  else mret fs.

(** The three messages [main] prints. *)
Inductive notice :=
  | Copied (src : path)
  | SkippedMissing (src : path)
  | AllDone (dest_root : path).

(** The loop of [main]: the notices so far and the file system go from one
    source to the next; an exception ends the run with the notices printed
    before it. *)
Fixpoint copy_each (depth : nat) (dest_root project_root : path)
    (sources : list path) (out : list notice) (fs : node)
  : list notice * (exn + node) :=
  match sources with
  | [] => (out, inr fs)
  | src :: rest =>
      if path_exists src fs then
        match copy_with_structure depth src dest_root project_root fs with
        | inr fs' =>
            copy_each depth dest_root project_root rest (out ++ [Copied src]) fs'
        | inl e => (out, inl e)
        end
      else
        copy_each depth dest_root project_root rest
          (out ++ [SkippedMissing src]) fs
  end.

(** [main] for a given destination, project root and list of sources. *)
Definition collect (depth : nat) (dest_root project_root : path)
    (sources : list path) (fs : node) : list notice * (exn + node) :=
  match mkdir_p dest_root fs with
  | inl e => ([], inl e)
  | inr fs =>
      match copy_each depth dest_root project_root sources [] fs with
      | (out, inr fs') => (out ++ [AllDone dest_root], inr fs')
      | (out, inl e) => (out, inl e)
      end
  end.

Definition project_root : path := ["C:"; "Users"; "avoca"; "fight-mobile-app"].

Definition sources : list path :=
  [ project_root ++ ["projectContext.md"];
    project_root ++ ["packages"; "backend"; "prisma"; "schema.prisma"];
    project_root ++ ["packages"; "backend"; "src"; "routes"];
    project_root ++ ["packages"; "mobile"; "app"];
    project_root ++ ["packages"; "shared"; "src"; "types"];
    project_root ++ ["packages"; "backend"; "src"; "middleware"; "auth.ts"];
    project_root ++ ["packages"; "mobile"; "store"; "AuthContext.tsx"] ].

(** [main], for the home directory [Path.home()] answers. *)
Definition main (depth : nat) (home : path) (fs : node)
  : list notice * (exn + node) :=
  let desktop := home ++ ["Desktop"] in
  let dest_root := desktop ++ ["context-persistence-files"] in
  collect depth dest_root project_root sources fs.

(** *** Vocabulary of the specification *)

(** Neither path leads to the other. *)
Definition apart (p q : path) : Prop :=
  ¬ p `prefix_of` q ∧ ¬ q `prefix_of` p.

#[global] Instance apart_dec p q : Decision (apart p q).
Proof. unfold apart. apply _. Defined.

(** [present s name d]: the tree [s], copied under the name [name], is there
    in what stands at the destination: a file as that file, or under its
    name in a directory that stands there; a directory as a directory that
    holds every entry of [s] in the same way. *)
Inductive present : node → string → option node → Prop :=
  | present_file data st name :
      present (File data st) name (Some (File data st))
  | present_inside data st name entries :
      entries !! name = Some (File data st) →
      present (File data st) name (Some (Dir entries))
  | present_dir sources name entries :
      (∀ k child, sources !! k = Some child → present child k (entries !! k)) →
      present (Dir sources) name (Some (Dir entries)).

(** A tree that [copytree] can walk with [depth] nested calls. *)
Inductive shallow : nat → node → Prop :=
  | shallow_file depth data st : shallow depth (File data st)
  | shallow_dir depth entries :
      (∀ k child, entries !! k = Some child → shallow depth child) →
      shallow (S depth) (Dir entries).

(** [fs'] is [fs] with additions at [dst], below it and on the way to it:
    paths apart from [dst] are as they were, and no directory or file has
    gone or has become the other. *)
Definition grown_at (dst : path) (fs fs' : node) : Prop :=
  (∀ q, apart q dst → lookup_path q fs' = lookup_path q fs) ∧
  (∀ q, is_dir q fs = true → is_dir q fs' = true) ∧
  (∀ q, is_file q fs = true → is_file q fs' = true).

(** An exception of the file-system calls. *)
Definition fs_error (e : exn) : Prop := e = OSError ∨ e = RecursionError.

(** The entries of a directory; none where there is no directory. *)
Definition dir_entries (n : option node) : gmap string node :=
  match n with Some (Dir es) => es | _ => ∅ end.

(** The notice a source gets, by whether it exists. *)
Definition notice_of (fs : node) (src : path) : notice :=
  if path_exists src fs then Copied src else SkippedMissing src.

(** The source [src] has been copied and nothing has changed since: it lies
    below the project root, and its tree is present at the destination. *)
Definition settled (depth : nat) (dest_root project_root : path) (fs : node)
    (src : path) : Prop :=
  ∃ rel tree,
    src = project_root ++ rel ∧
    lookup_path src fs = Some tree ∧
    shallow depth tree ∧
    present tree (basename src) (lookup_path (dest_root ++ rel) fs).


(** The exit status of a run of [main]. *)
Definition run_status (r : list notice * (exn + node)) : Z :=
  exit_status (match r.2 with inl e => Some e | inr _ => None end).

(** *** File systems for the examples *)

Definition mode_644 : stat := Stat 420 1700000000.

Definition folder (items : list (string * node)) : node := Dir (list_to_map items).

(** A project [p] with a file and a folder, and a file [q/x] outside it. *)
Definition small_project : node :=
  folder [ ("p", folder [ ("notes.md", File "notes" mode_644);
                          ("src", folder [ ("main.c", File "int main" mode_644);
                                           ("lib", folder [ ("util.c", File "util" mode_644) ]) ]) ]);
           ("q", folder [ ("x", File "outside" mode_644) ]) ].


(** The project [p] beside a destination [d] that is in use: [d/src] holds a
    file of its own, and a directory stands at the place of [notes.md]. *)
Definition used_destination : node :=
  folder [ ("p", folder [ ("notes.md", File "notes" mode_644);
                          ("src", folder [ ("main.c", File "int main" mode_644) ]) ]);
           ("d", folder [ ("notes.md", folder []);
                          ("src", folder [ ("old.c", File "old" mode_644) ]) ]) ].

(** A home directory [h] where [Desktop] is a regular file. *)
Definition blocked_home : node :=
  folder [ ("h", folder [ ("Desktop", File "not a folder" mode_644) ]) ].


End ExtractContext.
(** ** The status report: proofs *)
Module FightsReport.
Import CheckFights.
Local Open Scope list_scope.

Lemma subscript_record f k :
  is_record f = true →
  subscript f k = match field k f with Some v => inr v | None => inl (KeyError k) end.
Proof. destruct f; try discriminate. intros _. simpl. by destruct (assoc k items). Qed.

Lemma has_field_Some k f : has_field k f = true → ∃ v, field k f = Some v.
Proof. unfold has_field. destruct (field k f); eauto. discriminate. Qed.

Lemma has_field_record k f : has_field k f = true → is_record f = true.
Proof. unfold has_field, field. by destruct f. Qed.

Lemma comprehension_filter cond p xs :
  Forall (λ x, cond x = inr (p x)) xs →
  comprehension cond xs = inr (List.filter p xs).
Proof.
  induction 1 as [|x xs Hx _ IH]; [done|].
  simpl. rewrite Hx. simpl. rewrite IH. simpl. by destruct (p x).
Qed.

Lemma comprehension_raises cond e xs :
  Forall (λ x, cond x = inl e ∨ ∃ b, cond x = inr b) xs →
  Exists (λ x, cond x = inl e) xs →
  comprehension cond xs = inl e.
Proof.
  induction 1 as [|x xs Hx Hxs IH]; intros Hex; [by inversion Hex|].
  simpl. destruct Hx as [Hx|[b Hx]]; rewrite Hx; [done|]. simpl.
  inversion Hex as [? ? Hc|? ? Hrest]; subst; [congruence|].
  by rewrite IH.
Qed.

Lemma print_fight_eq f out :
  print_fight f out =
    match fight_line f with
    | inl e => (out, inl e)
    | inr line => ((out ++ [line])%list, inr tt)
    end.
Proof. unfold print_fight, mbind, script_bind, eval, print. by destruct (fight_line f). Qed.

Lemma for_each_cons {A} (body : A → script unit) x xs out :
  for_each body (x :: xs) out =
    match body x out with
    | (out', inl e) => (out', inl e)
    | (out', inr _) => for_each body xs out'
    end.
Proof. done. Qed.

Lemma for_each_card xs out :
  for_each print_fight xs out =
    ((out ++ (card_lines xs).1)%list,
     match (card_lines xs).2 with Some e => inl e | None => inr tt end).
Proof.
  revert out. induction xs as [|f xs IH]; intros out.
  - simpl. by rewrite app_nil_r.
  - rewrite for_each_cons, print_fight_eq. simpl card_lines.
    destruct (fight_line f) as [e|line]; simpl.
    + by rewrite app_nil_r.
    + rewrite IH. destruct (card_lines xs) as [ls r]. simpl.
      by rewrite <- app_assoc.
Qed.

Lemma has_started_flag f :
  has_field "hasStarted" f = true → has_started f = inr (flag "hasStarted" f).
Proof.
  intros H. unfold has_started, flag. rewrite subscript_record by eauto using has_field_record.
  destruct (has_field_Some _ _ H) as [v ->]. done.
Qed.

Lemma is_complete_flag f :
  has_field "isComplete" f = true → is_complete f = inr (flag "isComplete" f).
Proof.
  intros H. unfold is_complete, flag. rewrite subscript_record by eauto using has_field_record.
  destruct (has_field_Some _ _ H) as [v ->]. done.
Qed.

Lemma is_live_flag f :
  has_flags f = true →
  is_live f = inr (flag "hasStarted" f && negb (flag "isComplete" f)).
Proof.
  unfold has_flags. intros [H1 H2]%andb_prop.
  unfold is_live, flag. rewrite !subscript_record by eauto using has_field_record.
  destruct (has_field_Some _ _ H1) as [v ->], (has_field_Some _ _ H2) as [w ->].
  simpl. by destruct (truthy v).
Qed.

Lemma missing_field_raises k f :
  is_record f = true → has_field k f = false → subscript f k = inl (KeyError k).
Proof.
  intros Hr H. rewrite subscript_record by done. unfold has_field in H.
  by destruct (field k f).
Qed.

Lemma count_list cond p xs :
  Forall (λ x, cond x = inr (p x)) xs →
  count cond (VList xs) = inr (count_if p xs).
Proof.
  intros H. unfold count. simpl. by rewrite (comprehension_filter _ p).
Qed.

Lemma count_raises cond e xs :
  Forall (λ x, cond x = inl e ∨ ∃ b, cond x = inr b) xs →
  Exists (λ x, cond x = inl e) xs →
  count cond (VList xs) = inl e.
Proof. intros H1 H2. unfold count. simpl. by rewrite (comprehension_raises _ e). Qed.

Lemma chars_length s : length (chars s) = String.length s.
Proof. induction s as [|c s IH]; simpl; [done|]. by rewrite IH. Qed.

Lemma substring_length n s :
  (n ≤ String.length s)%nat → String.length (String.substring 0 n s) = n.
Proof.
  revert s. induction n as [|n IH]; intros [|c s]; simpl; try done; try lia.
  intros H. rewrite IH; [done|lia].
Qed.

Lemma first5_length v xs :
  (s ← slice_to 5 v; iter s) = inr xs → (length xs ≤ 5)%nat.
Proof.
  destruct v as [| | | |s|ys|]; try done; intros H.
  - change (inr (chars (String.substring 0 (Nat.min 5 (String.length s)) s))
            = inr (B:=list value) (A:=exn) xs) in H.
    injection H as <-.
    rewrite chars_length, substring_length;
      [exact (Nat.le_min_l 5 (String.length s))|exact (Nat.le_min_r 5 (String.length s))].
  - change (inr (take 5 ys) = inr (B:=list value) (A:=exn) xs) in H.
    injection H as <-. rewrite length_take. lia.
Qed.

Lemma card_lines_length xs : (length (card_lines xs).1 ≤ length xs)%nat.
Proof.
  induction xs as [|f xs IH]; simpl; [done|].
  destruct (fight_line f); simpl; [lia|].
  destruct (card_lines xs). simpl in *. lia.
Qed.

Lemma count_VList cond xs :
  count cond (VList xs) =
    match comprehension cond xs with
    | inl e => inl e
    | inr kept => inr (length kept)
    end.
Proof. unfold count. simpl. by destruct (comprehension cond xs). Qed.

Lemma has_started_cases f :
  (is_record f = false ∧ has_started f = inl TypeError) ∨
  (is_record f = true ∧
   (has_started f = inl (KeyError "hasStarted") ∨ ∃ b, has_started f = inr b)).
Proof.
  unfold has_started.
  destruct f; try (by left). right. split; [done|]. simpl.
  destruct (assoc "hasStarted" items); simpl; eauto.
Qed.

Lemma has_started_stops xs :
  Exists (λ f, is_record f = false) xs →
  comprehension has_started xs = inl TypeError ∨
  comprehension has_started xs = inl (KeyError "hasStarted").
Proof.
  induction xs as [|f xs IH]; intros Hex; [by inversion Hex|]. simpl.
  destruct (has_started_cases f) as [[Hr ->]|[Hr [->|[b ->]]]]; simpl; [by left|by right|].
  inversion Hex as [? ? Hf|? ? Hrest]; subst; [congruence|].
  destruct (IH Hrest) as [->| ->]; [by left|by right].
Qed.

Section Report.
Variable json_load : string → exn + value.

Lemma main_steps stdin out :
  main json_load stdin out =
    match json_load stdin with
    | inl e => (out, inl e)
    | inr response =>
    match subscript response "fights" with
    | inl e => (out, inl e)
    | inr fights =>
    let out := (out ++ ["Fight statuses in database:" +:+ newline])%list in
    match len fights with
    | inl e => (out, inl e)
    | inr total =>
    let out := (out ++ ["Total fights: " +:+ pretty total])%list in
    match count has_started fights with
    | inl e => (out, inl e)
    | inr started =>
    let out := (out ++ ["Has started: " +:+ pretty started])%list in
    match count is_complete fights with
    | inl e => (out, inl e)
    | inr complete =>
    let out := (out ++ ["Complete: " +:+ pretty complete])%list in
    match count is_live fights with
    | inl e => (out, inl e)
    | inr live =>
    let out := (out ++ ["Live (started but not complete): " +:+ pretty live])%list in
    let out := (out ++ [newline +:+ "Main card (first 5):"])%list in
    match (s ← slice_to 5 fights; iter s) with
    | inl e => (out, inl e)
    | inr first5 => for_each print_fight first5 out
    end end end end end end end.
Proof.
  unfold main, mbind at 1 2 3 4 5 6 7 8 9 10 11 12 13, script_bind, eval, print.
  destruct (json_load stdin) as [|response]; [done|].
  destruct (subscript response "fights") as [|fights]; [done|].
  destruct (len fights); [done|].
  destruct (count has_started fights); [done|].
  destruct (count is_complete fights); [done|].
  destruct (count is_live fights); [done|].
  cbv zeta.
  destruct (slice_to 5 fights ≫= iter); done.
Qed.

Lemma subscript_fights response fights :
  field "fights" response = Some (VList fights) →
  subscript response "fights" = inr (VList fights).
Proof. destruct response; try discriminate. simpl. by intros ->. Qed.

Lemma report_ok stdin response fights :
  json_load stdin = inr response →
  field "fights" response = Some (VList fights) →
  Forall (λ f, has_flags f = true) fights →
  check_fights json_load stdin =
    Outcome (summary fights ++ (card_lines (take 5 fights)).1)
            ((card_lines (take 5 fights)).2).
Proof.
  intros Hload Hfights Hflags.
  unfold check_fights, run_script. rewrite main_steps, Hload, (subscript_fights _ _ Hfights).
  simpl len. cbv zeta.
  rewrite (count_list _ (flag "hasStarted")), (count_list _ (flag "isComplete")),
    (count_list _ (λ f, flag "hasStarted" f && negb (flag "isComplete" f))).
  - simpl (slice_to _ _ ≫= _). unfold mret, eval_ret. cbv beta iota. rewrite for_each_card.
    destruct (card_lines (take 5 fights)) as [lines [e|]]; done.
  - eapply Forall_impl; [done|]. intros f Hf. by apply is_live_flag.
  - eapply Forall_impl; [done|]. intros f [_ Hf]%andb_prop. by apply is_complete_flag.
  - eapply Forall_impl; [done|]. intros f [Hf _]%andb_prop. by apply has_started_flag.
Qed.

Lemma flag_or_raises (cond : value → exn + bool) k (p : value → bool) xs :
  (∀ f, has_field k f = true → cond f = inr (p f)) →
  (∀ f, is_record f = true → has_field k f = false → cond f = inl (KeyError k)) →
  Forall (λ f, is_record f = true) xs →
  Forall (λ f, cond f = inl (KeyError k) ∨ ∃ b, cond f = inr b) xs.
Proof.
  intros Hyes Hno Hrec. eapply Forall_impl; [exact Hrec|]. intros f Hf.
  destruct (has_field k f) eqn:E; [right|left]; eauto.
Qed.

Lemma report_no_started stdin response fights :
  json_load stdin = inr response →
  field "fights" response = Some (VList fights) →
  Forall (λ f, is_record f = true) fights →
  Exists (λ f, has_field "hasStarted" f = false) fights →
  check_fights json_load stdin =
    Outcome (take 2 (summary fights)) (Some (KeyError "hasStarted")).
Proof.
  intros Hload Hfights Hrec Hex.
  unfold check_fights, run_script. rewrite main_steps, Hload, (subscript_fights _ _ Hfights).
  simpl len. cbv zeta.
  rewrite (count_raises _ (KeyError "hasStarted")); [done| |].
  - eapply flag_or_raises; [apply has_started_flag| |done].
    intros f Hf Hno. unfold has_started. by rewrite missing_field_raises.
  - rewrite Exists_exists in Hex |- *. destruct Hex as (f & Hin & Hno).
    exists f. split; [done|]. unfold has_started. rewrite missing_field_raises; [done| |done].
    rewrite Forall_forall in Hrec. auto.
Qed.

Lemma report_no_complete stdin response fights :
  json_load stdin = inr response →
  field "fights" response = Some (VList fights) →
  Forall (λ f, has_field "hasStarted" f = true) fights →
  Exists (λ f, has_field "isComplete" f = false) fights →
  check_fights json_load stdin =
    Outcome (take 3 (summary fights)) (Some (KeyError "isComplete")).
Proof.
  intros Hload Hfights Hst Hex.
  assert (Hrec : Forall (λ f, is_record f = true) fights).
  { eapply Forall_impl; [exact Hst|]. intros f Hf. simpl in Hf. by eapply has_field_record. }
  unfold check_fights, run_script. rewrite main_steps, Hload, (subscript_fights _ _ Hfights).
  simpl len. cbv zeta.
  rewrite (count_list _ (flag "hasStarted")).
  2:{ eapply Forall_impl; [exact Hst|]. intros f Hf. simpl in Hf. by apply has_started_flag. }
  rewrite (count_raises _ (KeyError "isComplete")); [done| |].
  - eapply flag_or_raises; [apply is_complete_flag| |done].
    intros f Hf Hno. unfold is_complete. by rewrite missing_field_raises.
  - rewrite Exists_exists in Hex |- *. destruct Hex as (f & Hin & Hno).
    exists f. split; [done|]. unfold is_complete. rewrite missing_field_raises; [done| |done].
    rewrite Forall_forall in Hrec. auto.
Qed.

(** *** The main-card lines *)

Lemma fight_line_steps f :
  is_record f = true →
  fight_line f =
    match field "fighter1" f with
    | None => inl (KeyError "fighter1")
    | Some f1 =>
    match subscript f1 "firstName" with
    | inl e => inl e
    | inr a =>
    match subscript f1 "lastName" with
    | inl e => inl e
    | inr b =>
    match field "fighter2" f with
    | None => inl (KeyError "fighter2")
    | Some f2 =>
    match subscript f2 "firstName" with
    | inl e => inl e
    | inr c =>
    match subscript f2 "lastName" with
    | inl e => inl e
    | inr d =>
    match field "hasStarted" f with
    | None => inl (KeyError "hasStarted")
    | Some s =>
    match field "isComplete" f with
    | None => inl (KeyError "isComplete")
    | Some e =>
        inr ("  " +:+ py_str a +:+ " " +:+ py_str b +:+ " vs " +:+ py_str c
             +:+ " " +:+ py_str d +:+ ": hasStarted=" +:+ py_str s
             +:+ ", complete=" +:+ py_str e)
    end end end end end end end end.
Proof.
  intros Hrec. unfold fight_line. rewrite !(subscript_record f) by done.
  unfold mbind, eval_bind.
  destruct (field "fighter1" f) as [f1|]; [|done].
  destruct (subscript f1 "firstName"); [done|].
  destruct (subscript f1 "lastName"); [done|].
  destruct (field "fighter2" f) as [f2|]; [|done].
  destruct (subscript f2 "firstName"); [done|].
  destruct (subscript f2 "lastName"); [done|].
  destruct (field "hasStarted" f); [|done].
  by destruct (field "isComplete" f).
Qed.

Lemma well_formed_line f :
  well_formed f = true → ∃ line, fight_line f = inr line.
Proof.
  unfold well_formed, has_flags, has_names.
  intros [[[Hs Hc]%andb_prop H1]%andb_prop H2]%andb_prop.
  rewrite fight_line_steps by eauto using has_field_record.
  destruct (field "fighter1" f) as [f1|]; [|done].
  destruct (field "fighter2" f) as [f2|]; [|done].
  apply andb_prop in H1 as [[R1 A1]%andb_prop B1].
  apply andb_prop in H2 as [[R2 A2]%andb_prop B2].
  rewrite !subscript_record by done.
  destruct (has_field_Some _ _ A1) as [? ->], (has_field_Some _ _ B1) as [? ->],
    (has_field_Some _ _ A2) as [? ->], (has_field_Some _ _ B2) as [? ->],
    (has_field_Some _ _ Hs) as [? ->], (has_field_Some _ _ Hc) as [? ->].
  eauto.
Qed.


Lemma card_lines_ok xs :
  Forall (λ f, well_formed f = true) xs →
  (card_lines xs).2 = None ∧
  Forall2 (λ f line, fight_line f = inr line) xs (card_lines xs).1.
Proof.
  induction 1 as [|f xs Hf _ [IH1 IH2]]; simpl; [by split; constructor|].
  destruct (well_formed_line f Hf) as [line Hline]. rewrite Hline.
  destruct (card_lines xs) as [lines r]. simpl in *. split; [done|]. by constructor.
Qed.



(** *** The documented behaviour *)

(** C1.  When [fights] is an array of records that all have [hasStarted]
    and [isComplete], lines 2 to 5 of the output give the length of the
    array, the number of records with a truthy [hasStarted], the number
    with a truthy [isComplete], and the number with a truthy [hasStarted]
    and a falsy [isComplete]. *)
Theorem counts_printed stdin response fights :
  json_load stdin = inr response →
  field "fights" response = Some (VList fights) →
  Forall (λ f, has_field "hasStarted" f = true ∧ has_field "isComplete" f = true)
         fights →
  let out := stdout (check_fights json_load stdin) in
  out !! 1 = Some ("Total fights: " +:+ pretty (length fights)) ∧
  out !! 2 = Some ("Has started: " +:+ pretty (count_if (flag "hasStarted") fights)) ∧
  out !! 3 = Some ("Complete: " +:+ pretty (count_if (flag "isComplete") fights)) ∧
  out !! 4 = Some ("Live (started but not complete): " +:+
                   pretty (count_if (λ f, flag "hasStarted" f
                                          && negb (flag "isComplete" f)) fights)).
Proof.
  intros Hload Hfights Hall out. subst out.
  erewrite report_ok; [|done..|].
  - done.
  - eapply Forall_impl; [exact Hall|]. intros f [H1 H2]. unfold has_flags.
    by rewrite H1, H2.
Qed.

(** C3.  For an array of well-formed records the run succeeds, the six
    summary lines are followed by exactly [min 5 n] lines, and line [i] of
    those is the line of record [i]; seven records give five lines; the
    empty array gives none, below four counts of 0. *)
Theorem main_card_lines stdin response fights :
  json_load stdin = inr response →
  field "fights" response = Some (VList fights) →
  Forall (λ f, well_formed f = true) fights →
  let o := check_fights json_load stdin in
  let card := drop 6 (stdout o) in
  raised o = None ∧
  take 6 (stdout o) = summary fights ∧
  length card = Nat.min 5 (length fights) ∧
  (∀ i f, i < 5 → fights !! i = Some f →
          ∃ line, fight_line f = inr line ∧ card !! i = Some line) ∧
  (length fights = 7 → length card = 5) ∧
  (fights = [] →
     stdout o = [ "Fight statuses in database:" +:+ newline;
                  "Total fights: 0"; "Has started: 0"; "Complete: 0";
                  "Live (started but not complete): 0";
                  newline +:+ "Main card (first 5):" ]).
Proof.
  intros Hload Hfights Hwf o card. subst card o.
  assert (Hflags : Forall (λ f, has_flags f = true) fights).
  { eapply Forall_impl; [exact Hwf|]. intros f Hf. simpl in Hf.
    unfold well_formed in Hf. by apply andb_prop in Hf as [[? _]%andb_prop _]. }
  rewrite (report_ok _ _ _ Hload Hfights Hflags).
  destruct (card_lines_ok (take 5 fights)) as [Hnone Hlines].
  { by apply Forall_take. }
  simpl stdout. simpl raised.
  change (drop 6 (summary fights ++ ?l)) with l.
  change (take 6 (summary fights ++ ?l)) with (summary fights).
  assert (Hlen : length (card_lines (take 5 fights)).1 = Nat.min 5 (length fights)).
  { rewrite <- (Forall2_length _ _ _ Hlines). by rewrite length_take. }
  split_and!; try done.
  - intros i f Hi Hf.
    assert (Hti : take 5 fights !! i = Some f) by by rewrite lookup_take_lt.
    destruct (Forall2_lookup_l _ _ _ _ _ Hlines Hti) as (line & ? & ?). eauto.
  - intros H7. by rewrite H7 in Hlen.
  - by intros ->.
Qed.

(** C8.  The report for the one-fight example of the specification. *)
Theorem example_report stdin :
  stdin = Json.json "{'fights':[{'hasStarted':true,'isComplete':false,'fighter1':{'firstName':'Jon','lastName':'Jones'},'fighter2':{'firstName':'Tom','lastName':'Aspinall'}}]}" →
  json_load stdin =
    inr (VDict [("fights", VList [VDict
           [("hasStarted", VBool true); ("isComplete", VBool false);
            ("fighter1", VDict [("firstName", VStr "Jon"); ("lastName", VStr "Jones")]);
            ("fighter2", VDict [("firstName", VStr "Tom"); ("lastName", VStr "Aspinall")])]])]) →
  check_fights json_load stdin =
    Outcome [ "Fight statuses in database:" +:+ newline;
              "Total fights: 1";
              "Has started: 1";
              "Complete: 0";
              "Live (started but not complete): 1";
              newline +:+ "Main card (first 5):";
              "  Jon Jones vs Tom Aspinall: hasStarted=True, complete=False" ]
            None.
Proof.
  intros _ Hload. unfold check_fights, run_script. rewrite main_steps, Hload.
  vm_compute. reflexivity.
Qed.


Lemma report_no_flags stdin response fights :
  json_load stdin = inr response →
  field "fights" response = Some (VList fights) →
  Forall (λ f, is_record f = true) fights →
  ¬ Forall (λ f, has_flags f = true) fights →
  let o := check_fights json_load stdin in
  (raised o = Some (KeyError "hasStarted") ∧ stdout o = take 2 (summary fights)) ∨
  (raised o = Some (KeyError "isComplete") ∧ stdout o = take 3 (summary fights)).
Proof.
  intros Hload Hfights Hrec Hno o. subst o.
  destruct (decide (Forall (λ f, has_field "hasStarted" f = true) fights)) as [Hst|Hst].
  - right. erewrite report_no_complete; [done..|].
    apply not_Forall_Exists in Hno; [|apply _].
    apply Exists_exists in Hno as (g & Hin & Hg). apply Exists_exists.
    exists g. split; [done|].
    rewrite Forall_forall in Hst. simpl in Hg. unfold has_flags in Hg.
    rewrite (Hst g Hin) in Hg.
    by destruct (has_field "isComplete" g).
  - left. erewrite report_no_started; [done..|].
    apply not_Forall_Exists in Hst; [|apply _].
    eapply Exists_impl; [exact Hst|]. intros g Hg. simpl in Hg.
    by destruct (has_field "hasStarted" g).
Qed.

(** C10.  When [fights] is an array of records and one of them, wherever
    it stands, has no [hasStarted] or no [isComplete], the run ends with a
    [KeyError] while the counts are computed: after the total, or after
    the started count, and before the main-card header. *)
Theorem missing_flag_is_fatal stdin response fights f :
  json_load stdin = inr response →
  field "fights" response = Some (VList fights) →
  Forall (λ f, is_record f = true) fights →
  f ∈ fights →
  has_flags f = false →
  let o := check_fights json_load stdin in
  (raised o = Some (KeyError "hasStarted") ∧ stdout o = take 2 (summary fights)) ∨
  (raised o = Some (KeyError "isComplete") ∧ stdout o = take 3 (summary fights)).
Proof.
  intros Hload Hfights Hrec Hin Hno.
  apply (report_no_flags _ _ _ Hload Hfights Hrec).
  rewrite Forall_forall. intros Hall.
  specialize (Hall f Hin). simpl in Hall. congruence.
Qed.


(** C4, as the code has it.  The run ends with status 1, before anything
    is printed, when the text cannot be decoded and when the decoded value
    has no [fights]; it ends with status 0 only when no exception was
    raised, as it does for an array of well-formed records. *)
Theorem exit_status_of_report stdin :
  let o := check_fights json_load stdin in
  (∀ e, json_load stdin = inl e →
        exit_status (raised o) = 1%Z ∧ stdout o = []) ∧
  (∀ response, json_load stdin = inr response → field "fights" response = None →
        exit_status (raised o) = 1%Z ∧ stdout o = []) ∧
  (exit_status (raised o) = 0%Z → raised o = None) ∧
  (∀ response fights,
        json_load stdin = inr response →
        field "fights" response = Some (VList fights) →
        Forall (λ f, well_formed f = true) fights →
        exit_status (raised o) = 0%Z).
Proof.
  intros o. subst o. split_and!.
  - intros e He. unfold check_fights, run_script. by rewrite main_steps, He.
  - intros response Hload Hno. unfold check_fights, run_script.
    rewrite main_steps, Hload.
    assert (∃ e, subscript response "fights" = inl e) as [e ->]; [|done].
    destruct response; simpl in *; eauto. rewrite Hno. eauto.
  - by destruct (raised _).
  - intros response fights Hload Hfights Hwf.
    assert (Hflags : Forall (λ f, has_flags f = true) fights).
    { eapply Forall_impl; [exact Hwf|]. intros f Hf. simpl in Hf.
      unfold well_formed in Hf. by apply andb_prop in Hf as [[? _]%andb_prop _]. }
    rewrite (report_ok _ _ _ Hload Hfights Hflags). simpl.
    destruct (card_lines_ok (take 5 fights)) as [-> _]; [by apply Forall_take|done].
Qed.

(** Whatever is read from standard input, the report has at most eleven
    lines: at most five follow the six lines of the summary. *)
Theorem report_is_bounded stdin :
  let o := check_fights json_load stdin in
  (length (stdout o) ≤ 11)%nat ∧ (length (drop 6 (stdout o)) ≤ 5)%nat.
Proof.
  intros o. subst o. unfold check_fights, run_script. rewrite main_steps.
  destruct (json_load stdin) as [|response]; [simpl; lia|].
  destruct (subscript response "fights") as [|fights]; [simpl; lia|]. cbv zeta.
  destruct (len fights); [simpl; lia|].
  destruct (count has_started fights); [simpl; lia|].
  destruct (count is_complete fights); [simpl; lia|].
  destruct (count is_live fights); [simpl; lia|].
  destruct (slice_to 5 fights ≫= iter) as [|first5] eqn:E; [simpl; lia|].
  rewrite for_each_card.
  pose proof (first5_length _ _ E). pose proof (card_lines_length first5).
  destruct (card_lines first5) as [lines [e|]]; simpl in *; rewrite drop_0; lia.
Qed.

(** A [fights] that is not an array lets the run succeed in one case only,
    the empty string, for which the report shows four counts of 0 and no
    main-card line. *)
Theorem only_empty_string_passes stdin response v :
  json_load stdin = inr response →
  field "fights" response = Some v →
  (∀ xs, v ≠ VList xs) →
  let o := check_fights json_load stdin in
  (raised o = None ↔ v = VStr EmptyString) ∧
  (v = VStr EmptyString → stdout o = summary []).
Proof.
  intros Hload Hv Hlist o. subst o.
  assert (Hsub : subscript response "fights" = inr v).
  { destruct response; try done. simpl in *. by rewrite Hv. }
  unfold check_fights, run_script. rewrite main_steps, Hload, Hsub. cbv zeta.
  destruct v as [| | | |s|xs|items];
    try (simpl; split; [split; intros; done|intros; done]).
  - destruct s as [|c s]; [by vm_compute|].
    simpl; split; [split; intros; done|intros; done].
  - by destruct (Hlist xs).
  - destruct items as [|[k w] items]; simpl;
      (split; [split; intros; done|intros; done]).
Qed.

(** An array with an element that is not an object stops the run while the
    started count is computed, with a [TypeError] or, when a record before
    that element has no [hasStarted], a [KeyError]; two lines have been
    printed by then. *)
Theorem non_object_element_is_fatal stdin response fights :
  json_load stdin = inr response →
  field "fights" response = Some (VList fights) →
  Exists (λ f, is_record f = false) fights →
  let o := check_fights json_load stdin in
  stdout o = take 2 (summary fights) ∧
  (raised o = Some TypeError ∨ raised o = Some (KeyError "hasStarted")).
Proof.
  intros Hload Hfights Hex o. subst o.
  unfold check_fights, run_script.
  rewrite main_steps, Hload, (subscript_fights _ _ Hfights). simpl len. cbv zeta.
  rewrite count_VList.
  destruct (has_started_stops _ Hex) as [-> | ->]; simpl; auto.
Qed.

(** The fighters of the records after the fifth are not read: when every
    record has the two flags and the first five are well-formed, the run
    succeeds and prints the summary and the lines of the first five. *)
Theorem later_records_need_flags_only stdin response fights :
  json_load stdin = inr response →
  field "fights" response = Some (VList fights) →
  Forall (λ f, has_flags f = true) fights →
  Forall (λ f, well_formed f = true) (take 5 fights) →
  let o := check_fights json_load stdin in
  raised o = None ∧
  ∃ lines, stdout o = summary fights ++ lines ∧
           Forall2 (λ f line, fight_line f = inr line) (take 5 fights) lines.
Proof.
  intros Hload Hfights Hflags Hwf o. subst o.
  rewrite (report_ok _ _ _ Hload Hfights Hflags).
  destruct (card_lines_ok _ Hwf) as [-> Hlines]. split; [done|]. eauto.
Qed.
End Report.

(** *** The theorems at concrete inputs *)

Lemma counts_printed_witness :
  let stdin := Json.json "{'fights':[{'hasStarted':true,'isComplete':0},{'hasStarted':1,'isComplete':'yes'},{'hasStarted':null,'isComplete':false}]}" in
  let out := stdout (check_fights Json.loads stdin) in
  out !! 1 = Some "Total fights: 3" ∧
  out !! 2 = Some "Has started: 2" ∧
  out !! 3 = Some "Complete: 1" ∧
  out !! 4 = Some "Live (started but not complete): 1".
Proof.
  intros stdin.
  apply (counts_printed Json.loads stdin
           (VDict [("fights", VList
              [VDict [("hasStarted", VBool true); ("isComplete", VInt 0)];
               VDict [("hasStarted", VInt 1); ("isComplete", VStr "yes")];
               VDict [("hasStarted", VNone); ("isComplete", VBool false)]])])
           [VDict [("hasStarted", VBool true); ("isComplete", VInt 0)];
            VDict [("hasStarted", VInt 1); ("isComplete", VStr "yes")];
            VDict [("hasStarted", VNone); ("isComplete", VBool false)]]).
  - vm_compute. reflexivity.
  - reflexivity.
  - repeat constructor.
Defined.

Lemma main_card_lines_witness :
  let stdin := Json.json "{'fights':[{'hasStarted':true,'isComplete':false,'fighter1':{'firstName':'Jon','lastName':'Jones'},'fighter2':{'firstName':'Tom','lastName':'Aspinall'}}]}" in
  let o := check_fights Json.loads stdin in
  raised o = None ∧ length (drop 6 (stdout o)) = 1.
Proof.
  intros stdin o.
  pose proof (main_card_lines Json.loads stdin
    (VDict [("fights", VList [VDict
       [("hasStarted", VBool true); ("isComplete", VBool false);
        ("fighter1", VDict [("firstName", VStr "Jon"); ("lastName", VStr "Jones")]);
        ("fighter2", VDict [("firstName", VStr "Tom"); ("lastName", VStr "Aspinall")])]])])
    [VDict
       [("hasStarted", VBool true); ("isComplete", VBool false);
        ("fighter1", VDict [("firstName", VStr "Jon"); ("lastName", VStr "Jones")]);
        ("fighter2", VDict [("firstName", VStr "Tom"); ("lastName", VStr "Aspinall")])]]) as H.
  destruct H as (H1 & _ & H2 & _).
  - vm_compute. reflexivity.
  - reflexivity.
  - repeat constructor.
  - split; [exact H1|exact H2].
Defined.

Lemma example_report_witness :
  let stdin := Json.json "{'fights':[{'hasStarted':true,'isComplete':false,'fighter1':{'firstName':'Jon','lastName':'Jones'},'fighter2':{'firstName':'Tom','lastName':'Aspinall'}}]}" in
  stdout (check_fights Json.loads stdin) !! 6 =
    Some "  Jon Jones vs Tom Aspinall: hasStarted=True, complete=False".
Proof.
  intros stdin. rewrite (example_report Json.loads stdin).
  - reflexivity.
  - reflexivity.
  - vm_compute. reflexivity.
Defined.

Lemma missing_flag_is_fatal_witness :
  let stdin := Json.json "{'fights':[{'hasStarted':true,'isComplete':false},{'hasStarted':true}]}" in
  let o := check_fights Json.loads stdin in
  raised o = Some (KeyError "isComplete") ∧ length (stdout o) = 3.
Proof.
  intros stdin o.
  destruct (missing_flag_is_fatal Json.loads stdin
    (VDict [("fights", VList
       [VDict [("hasStarted", VBool true); ("isComplete", VBool false)];
        VDict [("hasStarted", VBool true)]])])
    [VDict [("hasStarted", VBool true); ("isComplete", VBool false)];
     VDict [("hasStarted", VBool true)]]
    (VDict [("hasStarted", VBool true)])) as [[H _]|[H1 H2]].
  - vm_compute. reflexivity.
  - reflexivity.
  - repeat constructor.
  - set_solver.
  - reflexivity.
  - vm_compute in H. discriminate H.
  - split; [exact H1|]. fold o in H2. rewrite H2. reflexivity.
Defined.


Lemma exit_status_of_report_witness :
  exit_status (raised (check_fights Json.loads (Json.json "{'fights': [}"))) = 1%Z ∧
  exit_status (raised (check_fights Json.loads (Json.json "{'bouts': []}"))) = 1%Z ∧
  exit_status (raised (check_fights Json.loads (Json.json "{'fights': []}"))) = 0%Z.
Proof.
  split_and!.
  - destruct (exit_status_of_report Json.loads (Json.json "{'fights': [}"))
      as (H & _).
    apply (H JSONDecodeError). vm_compute. reflexivity.
  - destruct (exit_status_of_report Json.loads (Json.json "{'bouts': []}"))
      as (_ & H & _).
    apply (H (VDict [("bouts", VList [])])).
    + vm_compute. reflexivity.
    + reflexivity.
  - destruct (exit_status_of_report Json.loads (Json.json "{'fights': []}"))
      as (_ & _ & _ & H).
    apply (H (VDict [("fights", VList [])]) []).
    + vm_compute. reflexivity.
    + reflexivity.
    + constructor.
Defined.

(** C4 as stated fails: the text below is decoded, the value has the key
    [fights], and the run still ends with a non-zero status. *)
Lemma fails_with_fights_key :
  ¬ (∀ (json_load : string → exn + value) (stdin : string),
       exit_status (raised (check_fights json_load stdin)) ≠ 0%Z ↔
       ((∃ e, json_load stdin = inl e) ∨
        (∃ response, json_load stdin = inr response ∧
                     field "fights" response = None))).
Proof.
  intros H.
  destruct (H Json.loads (Json.json "{'fights':[{}]}")) as [H1 _].
  destruct H1 as [[e He]|(response & Hr & Hn)].
  - vm_compute. discriminate.
  - vm_compute in He. discriminate He.
  - vm_compute in Hr. injection Hr as <-. vm_compute in Hn. discriminate Hn.
Qed.

(** *** Further properties of the report *)

Lemma len_iter v total :
  len v = inr total → ∃ xs, iter v = inr xs ∧ length xs = total.
Proof.
  destruct v; try done; simpl; intros [= <-]; eexists; split; try done.
  - apply chars_length.
  - by rewrite length_map.
Qed.

Lemma is_live_eq f a b c :
  has_started f = inr a → is_complete f = inr b → is_live f = inr c →
  c = a && negb b.
Proof.
  unfold has_started, is_complete, is_live.
  destruct (subscript f "hasStarted") as [|s]; [done|].
  destruct (subscript f "isComplete") as [|w]; [done|]. simpl.
  intros [= <-] [= <-]. destruct (truthy s); simpl; by intros [= <-].
Qed.

Lemma comprehension_length cond xs kept :
  comprehension cond xs = inr kept → (length kept ≤ length xs)%nat.
Proof.
  revert kept. induction xs as [|f xs IH]; intros kept; simpl.
  - by intros [= <-].
  - destruct (cond f) as [|c]; [done|]. simpl.
    destruct (comprehension cond xs) as [|ks]; [done|]. simpl.
    intros [= <-]. specialize (IH ks eq_refl). destruct c; simpl; lia.
Qed.

Lemma comprehensions_ordered xs ks kc kl :
  comprehension has_started xs = inr ks →
  comprehension is_complete xs = inr kc →
  comprehension is_live xs = inr kl →
  (length kl ≤ length ks ∧ length kl + length kc ≤ length xs)%nat.
Proof.
  revert ks kc kl. induction xs as [|f xs IH]; intros ks kc kl; simpl.
  - by intros [= <-] [= <-] [= <-].
  - destruct (has_started f) as [|a] eqn:Ea; [done|].
    destruct (is_complete f) as [|b] eqn:Eb; [done|].
    destruct (is_live f) as [|c] eqn:Ec; [done|]. simpl.
    destruct (comprehension has_started xs) as [|ks']; [done|].
    destruct (comprehension is_complete xs) as [|kc']; [done|].
    destruct (comprehension is_live xs) as [|kl']; [done|]. simpl.
    intros [= <-] [= <-] [= <-].
    destruct (IH ks' kc' kl' eq_refl eq_refl eq_refl) as [H1 H2].
    rewrite (is_live_eq f a b c Ea Eb Ec). destruct a, b; simpl; lia.
Qed.

(** Whatever [fights] is, when the four counts can be computed the live
    count is at most the started count, the started and the complete count
    are at most the total, and live and complete together are at most the
    total. *)
Theorem counts_ordered fights total started complete live :
  len fights = inr total →
  count has_started fights = inr started →
  count is_complete fights = inr complete →
  count is_live fights = inr live →
  (live ≤ started ∧ started ≤ total ∧ complete ≤ total ∧ live + complete ≤ total)%nat.
Proof.
  intros (xs & Hxs & <-)%len_iter. unfold count. rewrite Hxs. simpl.
  destruct (comprehension has_started xs) as [|ks] eqn:Es; [done|].
  destruct (comprehension is_complete xs) as [|kc] eqn:Ec; [done|].
  destruct (comprehension is_live xs) as [|kl] eqn:El; [done|]. simpl.
  intros [= <-] [= <-] [= <-].
  destruct (comprehensions_ordered xs ks kc kl Es Ec El) as [H1 H2].
  pose proof (comprehension_length _ _ _ Es).
  pose proof (comprehension_length _ _ _ Ec). lia.
Qed.

Lemma counts_ordered_witness :
  let fights := VList [VDict [("hasStarted", VBool true); ("isComplete", VBool false)];
                       VDict [("hasStarted", VInt 1); ("isComplete", VStr "yes")];
                       VDict [("hasStarted", VNone); ("isComplete", VBool true)]] in
  len fights = inr 3 ∧ count has_started fights = inr 2 ∧
  count is_complete fights = inr 2 ∧ count is_live fights = inr 1 ∧
  (1 ≤ 2 ∧ 2 ≤ 3 ∧ 2 ≤ 3 ∧ 1 + 2 ≤ 3)%nat.
Proof.
  intros fights. split_and!; [reflexivity..| | | |];
    apply (counts_ordered fights 3 2 2 1); reflexivity.
Defined.

Lemma only_empty_string_passes_witness :
  let o := check_fights Json.loads (Json.json "{'fights': ''}") in
  let o' := check_fights Json.loads (Json.json "{'fights': 'soon'}") in
  raised o = None ∧ length (stdout o) = 6 ∧ raised o' ≠ None.
Proof.
  intros o o'.
  destruct (only_empty_string_passes Json.loads (Json.json "{'fights': ''}")
              (VDict [("fights", VStr EmptyString)]) (VStr EmptyString))
    as [[_ H1] H2]; [vm_compute; reflexivity|reflexivity|done|].
  destruct (only_empty_string_passes Json.loads (Json.json "{'fights': 'soon'}")
              (VDict [("fights", VStr "soon")]) (VStr "soon"))
    as [[H3 _] _]; [vm_compute; reflexivity|reflexivity|done|].
  split_and!.
  - by apply H1.
  - fold o in H2. by rewrite H2.
  - intros H. by specialize (H3 H).
Defined.

Lemma non_object_element_is_fatal_witness :
  let o := check_fights Json.loads
             (Json.json "{'fights':[{'hasStarted':true,'isComplete':false}, 7]}") in
  length (stdout o) = 2 ∧
  (raised o = Some TypeError ∨ raised o = Some (KeyError "hasStarted")).
Proof.
  intros o.
  destruct (non_object_element_is_fatal Json.loads
              (Json.json "{'fights':[{'hasStarted':true,'isComplete':false}, 7]}")
              (VDict [("fights", VList
                 [VDict [("hasStarted", VBool true); ("isComplete", VBool false)];
                  VInt 7])])
              [VDict [("hasStarted", VBool true); ("isComplete", VBool false)]; VInt 7])
    as [H1 H2]; [vm_compute; reflexivity|reflexivity| |].
  - right. left. reflexivity.
  - split; [|exact H2]. fold o in H1. by rewrite H1.
Defined.

Lemma later_records_need_flags_only_witness :
  let o := check_fights Json.loads (Json.json
    "{'fights':[{'hasStarted':true,'isComplete':false,'fighter1':{'firstName':'A','lastName':'B'},'fighter2':{'firstName':'C','lastName':'D'}},{'hasStarted':false,'isComplete':false}]}") in
  raised o ≠ None ∧
  let o' := check_fights Json.loads (Json.json
    "{'fights':[{'hasStarted':true,'isComplete':true,'fighter1':{'firstName':'A','lastName':'B'},'fighter2':{'firstName':'C','lastName':'D'}},{'hasStarted':true,'isComplete':true,'fighter1':{'firstName':'A','lastName':'B'},'fighter2':{'firstName':'C','lastName':'D'}},{'hasStarted':true,'isComplete':true,'fighter1':{'firstName':'A','lastName':'B'},'fighter2':{'firstName':'C','lastName':'D'}},{'hasStarted':true,'isComplete':true,'fighter1':{'firstName':'A','lastName':'B'},'fighter2':{'firstName':'C','lastName':'D'}},{'hasStarted':true,'isComplete':true,'fighter1':{'firstName':'A','lastName':'B'},'fighter2':{'firstName':'C','lastName':'D'}},{'hasStarted':false,'isComplete':false}]}") in
  raised o' = None.
Proof.
  intros o. split; [by vm_compute|]. intros o'.
  pose (full := VDict [("hasStarted", VBool true); ("isComplete", VBool true);
                       ("fighter1", VDict [("firstName", VStr "A"); ("lastName", VStr "B")]);
                       ("fighter2", VDict [("firstName", VStr "C"); ("lastName", VStr "D")])]).
  pose (bare := VDict [("hasStarted", VBool false); ("isComplete", VBool false)]).
  eapply (later_records_need_flags_only Json.loads _
            (VDict [("fights", VList [full; full; full; full; full; bare])])
            [full; full; full; full; full; bare]).
  - vm_compute. reflexivity.
  - reflexivity.
  - repeat constructor.
  - repeat constructor.
Defined.
End FightsReport.
(** ** The file collector: proofs *)
Module Collector.
Import ExtractContext.
Local Open Scope list_scope.

Implicit Types (p q src dst : path) (fs : node).

(** *** Paths *)

Lemma lookup_path_app p q fs :
  lookup_path (p ++ q) fs = lookup_path p fs ≫= lookup_path q.
Proof.
  revert fs. induction p as [|k p IH]; intros fs; simpl; [done|].
  destruct fs as [|es]; [done|]. destruct (es !! k); simpl; [apply IH|done].
Qed.

Lemma lookup_path_snoc p k fs es :
  lookup_path p fs = Some (Dir es) → lookup_path (p ++ [k]) fs = es !! k.
Proof.
  intros H. rewrite lookup_path_app, H. simpl. by destruct (es !! k).
Qed.

Lemma lookup_path_below_file p q fs data st :
  lookup_path p fs = Some (File data st) → q ≠ [] → lookup_path (p ++ q) fs = None.
Proof. intros H Hq. rewrite lookup_path_app, H. by destruct q. Qed.


Lemma relative_to_inv p root rel :
  relative_to p root = inr rel → p = root ++ rel.
Proof.
  revert p. induction root as [|r root IH]; intros [|c p]; simpl; try done.
  - by intros [= ->].
  - by intros [= ->].
  - destruct (String.eqb_spec r c) as [->|]; [|done]. intros H. f_equal. by apply IH.
Qed.

Lemma relative_to_app root rel : relative_to (root ++ rel) root = inr rel.
Proof.
  induction root as [|r root IH]; simpl; [by destruct rel|]. by rewrite String.eqb_refl.
Qed.

Lemma relative_to_outside p root :
  ¬ root `prefix_of` p → relative_to p root = inl ValueError.
Proof.
  revert p. induction root as [|r root IH]; intros p H; simpl.
  - destruct H. by exists p.
  - destruct p as [|c p]; simpl; [done|].
    destruct (String.eqb_spec r c) as [->|]; [|done].
    apply IH. intros [k ->]. apply H. by exists k.
Qed.

(** *** Making directories and writing files *)

Lemma mkdir_p_cons k p es :
  mkdir_p (k :: p) (Dir es) =
    match mkdir_p p (default (Dir ∅) (es !! k)) with
    | inl e => inl e
    | inr child => inr (Dir (<[k := child]> es))
    end.
Proof. done. Qed.

Lemma mkdir_p_dir p fs es :
  lookup_path p fs = Some (Dir es) → mkdir_p p fs = inr fs.
Proof.
  revert fs. induction p as [|k p IH]; intros fs; simpl lookup_path.
  - by intros [= ->].
  - destruct fs as [|es0]; [done|]. destruct (es0 !! k) as [c|] eqn:E; [|done].
    intros H. simpl in H. rewrite mkdir_p_cons, E. simpl default. rewrite (IH _ H).
    by rewrite insert_id.
Qed.

Lemma mkdir_p_frame p fs fs' q :
  mkdir_p p fs = inr fs' → ¬ q `prefix_of` p →
  lookup_path q fs' = lookup_path q fs.
Proof.
  revert fs fs' q. induction p as [|k p IH]; intros [|es] fs' q; try done.
  - by intros [= <-].
  - rewrite mkdir_p_cons.
    destruct (mkdir_p p _) as [|child] eqn:E; [done|]. intros [= <-] Hq.
    destruct q as [|k' q]; [destruct Hq; apply prefix_nil|]. simpl.
    destruct (decide (k = k')) as [<-|Hk]; [|by rewrite lookup_insert_ne].
    rewrite lookup_insert_eq. simpl.
    assert (Hq' : ¬ q `prefix_of` p).
    { intros Hp. apply Hq. by apply prefix_cons. }
    rewrite (IH _ _ q E Hq').
    destruct (es !! k); [done|]. simpl.
    destruct q as [|k' q]; [destruct Hq'; apply prefix_nil|]. simpl.
    by rewrite lookup_empty.
Qed.

Lemma mkdir_p_lookup p fs fs' :
  mkdir_p p fs = inr fs' →
  lookup_path p fs' = Some (Dir (dir_entries (lookup_path p fs))).
Proof.
  revert fs fs'. induction p as [|k p IH]; intros [|es] fs'; try done.
  - by intros [= <-].
  - rewrite mkdir_p_cons.
    destruct (mkdir_p p _) as [|child] eqn:E; [done|]. intros [= <-].
    simpl. rewrite lookup_insert_eq. simpl. rewrite (IH _ _ E).
    destruct (es !! k); [done|]. simpl. destruct p; [done|]. simpl.
    by rewrite lookup_empty.
Qed.

Lemma mkdir_p_keeps_dirs p fs fs' q :
  mkdir_p p fs = inr fs' → is_dir q fs = true → is_dir q fs' = true.
Proof.
  unfold is_dir.
  revert fs fs' q. induction p as [|k p IH]; intros [|es] fs' q; try done.
  - by intros [= <-].
  - rewrite mkdir_p_cons.
    destruct (mkdir_p p _) as [|child] eqn:E; [done|]. intros [= <-].
    destruct q as [|k' q]; [done|]. simpl.
    destruct (decide (k = k')) as [<-|Hk]; [|by rewrite lookup_insert_ne].
    rewrite lookup_insert_eq. simpl.
    destruct (es !! k) as [c|]; [|done]. simpl. by apply IH.
Qed.

Lemma write_file_cons k p data st es :
  write_file (k :: p) data st (Dir es) =
    match p with
    | [] =>
        if is_dir_node (es !! k) then inl OSError
        else inr (Dir (<[k := File data st]> es))
    | _ :: _ =>
        match es !! k with
        | Some child =>
            match write_file p data st child with
            | inl e => inl e
            | inr child' => inr (Dir (<[k := child']> es))
            end
        | None => inl OSError
        end
    end.
Proof. destruct p; [done|]. simpl. by destruct (es !! k). Qed.

Lemma write_file_same p fs data st :
  p ≠ [] →
  lookup_path p fs = Some (File data st) → write_file p data st fs = inr fs.
Proof.
  revert fs. induction p as [|k p IH]; intros fs Hp; [done|].
  destruct fs as [|es]; [done|]. simpl lookup_path.
  destruct (es !! k) as [c|] eqn:E; [|done]. intros H. simpl in H.
  rewrite write_file_cons, E. destruct p as [|k' p].
  - simpl in H. injection H as ->. simpl. by rewrite insert_id.
  - rewrite (IH c) by done. by rewrite insert_id.
Qed.

Lemma write_file_lookup p fs fs' data st :
  write_file p data st fs = inr fs' → lookup_path p fs' = Some (File data st).
Proof.
  revert fs fs'. induction p as [|k p IH]; intros [|es] fs'; try done.
  rewrite write_file_cons. destruct p as [|k' p].
  - destruct (is_dir_node _); [done|]. intros [= <-]. simpl. by rewrite lookup_insert_eq.
  - destruct (es !! k) as [c|]; [|done].
    destruct (write_file _ _ _ c) as [|c'] eqn:E; [done|]. intros [= <-].
    change (lookup_path (k :: k' :: p) (Dir (<[k:=c']> es)))
      with (<[k:=c']> es !! k ≫= lookup_path (k' :: p)).
    rewrite lookup_insert_eq. simpl option_bind. by apply (IH c).
Qed.

Lemma write_file_frame p fs fs' data st q :
  write_file p data st fs = inr fs' → ¬ q `prefix_of` p →
  lookup_path q fs' = lookup_path q fs.
Proof.
  revert fs fs' q. induction p as [|k p IH]; intros [|es] fs' q; try done.
  rewrite write_file_cons. intros Hw Hq.
  destruct q as [|k1 q]; [destruct Hq; apply prefix_nil|].
  change (lookup_path (k1 :: q) fs' = es !! k1 ≫= lookup_path q).
  destruct p as [|k' p].
  - destruct (is_dir_node (es !! k)) eqn:Ed; [done|]. injection Hw as <-.
    change (<[k:=File data st]> es !! k1 ≫= lookup_path q = es !! k1 ≫= lookup_path q).
    destruct (decide (k = k1)) as [<-|Hk]; [|by rewrite lookup_insert_ne].
    rewrite lookup_insert_eq.
    destruct q as [|k2 q]; [destruct Hq; done|].
    by destruct (es !! k) as [[|?]|].
  - destruct (es !! k) as [c|] eqn:Ec; [|done].
    destruct (write_file _ _ _ c) as [|c'] eqn:E; [done|]. injection Hw as <-.
    change (<[k:=c']> es !! k1 ≫= lookup_path q = es !! k1 ≫= lookup_path q).
    destruct (decide (k = k1)) as [<-|Hk]; [|by rewrite lookup_insert_ne].
    rewrite lookup_insert_eq, Ec. simpl option_bind.
    apply (IH c); [done|]. intros Hp. apply Hq. by apply prefix_cons.
Qed.

Lemma write_file_keeps_dirs p fs fs' data st q :
  write_file p data st fs = inr fs' → is_dir q fs = true → is_dir q fs' = true.
Proof.
  unfold is_dir.
  revert fs fs' q. induction p as [|k p IH]; intros [|es] fs' q; try done.
  rewrite write_file_cons. intros Hw.
  destruct q as [|k1 q]; [by destruct p, (es !! k) as [?|], (is_dir_node _);
    try destruct (write_file _ _ _ _); simplify_eq|].
  change (is_dir_node (es !! k1 ≫= lookup_path q) = true →
          is_dir_node (lookup_path (k1 :: q) fs') = true).
  destruct p as [|k' p].
  - destruct (is_dir_node (es !! k)) eqn:Ed; [done|]. injection Hw as <-.
    change (is_dir_node (es !! k1 ≫= lookup_path q) = true →
            is_dir_node (<[k:=File data st]> es !! k1 ≫= lookup_path q) = true).
    destruct (decide (k = k1)) as [<-|Hk]; [|by rewrite lookup_insert_ne].
    destruct (es !! k) as [[|?]|]; try done. by destruct q.
  - destruct (es !! k) as [c|] eqn:Ec; [|done].
    destruct (write_file _ _ _ c) as [|c'] eqn:E; [done|]. injection Hw as <-.
    change (is_dir_node (es !! k1 ≫= lookup_path q) = true →
            is_dir_node (<[k:=c']> es !! k1 ≫= lookup_path q) = true).
    destruct (decide (k = k1)) as [<-|Hk]; [|by rewrite lookup_insert_ne].
    rewrite lookup_insert_eq, Ec. simpl option_bind. by apply (IH c).
Qed.

(** *** Paths that are apart *)

Lemma apart_sym p q : apart p q → apart q p.
Proof. by intros [??]. Qed.

Lemma apart_app_r p q r : apart p q → apart p (q ++ r).
Proof.
  intros [H1 H2]. split.
  - intros H. destruct (prefix_weak_total p q (q ++ r)); auto using prefix_app_r.
  - intros H. apply H2. by eapply prefix_app_l.
Qed.

Lemma apart_app_l p q r : apart p q → apart (p ++ r) q.
Proof. intros H. by apply apart_sym, apart_app_r, apart_sym. Qed.

Lemma apart_siblings p k k' : k ≠ k' → apart (p ++ [k]) (p ++ [k']).
Proof.
  intros Hk. split; intros H%prefix_app_inv; by apply prefix_cons_inv_1 in H.
Qed.

Lemma apart_ne p q : apart p q → p ≠ q.
Proof. intros [H _] ->. by apply H. Qed.

Lemma apart_not_nil p q : apart p q → q ≠ [].
Proof. intros [_ H] ->. apply H, prefix_nil. Qed.

Lemma apart_not_prefix_snoc q dst k : apart q dst → ¬ q `prefix_of` dst ++ [k].
Proof. intros H. by apply (apart_app_r _ _ [k]) in H as [? _]. Qed.

(** *** Copying one file *)

Lemma copy2_eq src dst fs :
  copy2 src dst fs =
    let dst := if is_dir dst fs then dst ++ [basename src] else dst in
    match lookup_path src fs with
    | Some (File data st) =>
        if decide (src = dst) then inl OSError else write_file dst data st fs
    | _ => inl OSError
    end.
Proof. done. Qed.

Lemma is_dir_lookup p fs : is_dir p fs = true → ∃ es, lookup_path p fs = Some (Dir es).
Proof. unfold is_dir. destruct (lookup_path p fs) as [[|es]|]; eauto; done. Qed.

Lemma copy2_spec src dst fs fs' :
  copy2 src dst fs = inr fs' →
  ∃ data st,
    lookup_path src fs = Some (File data st) ∧
    (∀ q, apart q dst → lookup_path q fs' = lookup_path q fs) ∧
    present (File data st) (basename src) (lookup_path dst fs') ∧
    (∀ q, is_dir q fs = true → is_dir q fs' = true).
Proof.
  rewrite copy2_eq. cbv zeta.
  destruct (lookup_path src fs) as [[data st|]|] eqn:Esrc; try done.
  destruct (decide _) as [|Hne]; [done|]. intros Hw.
  exists data, st. split_and!; [done| | |intros q; by eapply write_file_keeps_dirs].
  - intros q Hq. eapply write_file_frame; [done|].
    destruct (is_dir dst fs); [by apply apart_not_prefix_snoc|apply Hq].
  - pose proof (write_file_lookup _ _ _ _ _ Hw) as Hl.
    destruct (is_dir dst fs) eqn:Ed.
    + destruct (is_dir_lookup dst fs' ) as [es' Hes'].
      { by eapply write_file_keeps_dirs. }
      rewrite Hes'. constructor. by rewrite <- (lookup_path_snoc dst _ fs').
    + rewrite Hl. constructor.
Qed.

Lemma copy2_settled src dst fs data st :
  apart src dst →
  lookup_path src fs = Some (File data st) →
  present (File data st) (basename src) (lookup_path dst fs) →
  copy2 src dst fs = inr fs.
Proof.
  intros Hap Hsrc Hpres. rewrite copy2_eq, Hsrc. cbv zeta. unfold is_dir.
  inversion Hpres as [? ? ? Hd|? ? ? es Hin Hd|]; subst; simpl.
  - rewrite decide_False by by apply apart_ne.
    apply write_file_same; [by eapply apart_not_nil|done].
  - rewrite decide_False by by apply apart_ne, apart_app_r.
    apply write_file_same; [by destruct dst|].
    by rewrite (lookup_path_snoc _ _ _ es).
Qed.


(** *** Copying a tree *)

Lemma copytree_S depth src dst fs :
  copytree (S depth) src dst fs =
    match scandir src fs with
    | inl e => inl e
    | inr entries =>
        match mkdir_p dst fs with
        | inl e => inl e
        | inr fs1 => thread (copy_entry (copytree depth) src dst) entries fs1
        end
    end.
Proof. done. Qed.

Lemma thread_cons {A} (f : A → node → exn + node) x xs fs :
  thread f (x :: xs) fs =
    match f x fs with inl e => inl e | inr fs' => thread f xs fs' end.
Proof. done. Qed.

Lemma scandir_dir src fs ss :
  lookup_path src fs = Some (Dir ss) →
  scandir src fs = inr (map (λ kv, (kv.1, is_dir_node (Some kv.2))) (map_to_list ss)).
Proof. unfold scandir. by intros ->. Qed.

Lemma scandir_entries ss k b :
  (k, b) ∈ map (λ kv : string * node, (kv.1, is_dir_node (Some kv.2))) (map_to_list ss) →
  ∃ c, ss !! k = Some c ∧ b = is_dir_node (Some c).
Proof.
  intros ([k' c] & [= -> ->] & Hin)%list_elem_of_fmap.
  exists c. by apply elem_of_map_to_list in Hin.
Qed.

Lemma scandir_keys ss :
  (map (λ kv : string * node, (kv.1, is_dir_node (Some kv.2))) (map_to_list ss)).*1
  = (map_to_list ss).*1.
Proof. rewrite <- list_fmap_compose. by apply list_fmap_ext. Qed.

Section Walk.
Variables (depth : nat) (src dst : path) (ss : gmap string node).
Hypothesis Hap : apart src dst.

(** What one nested call, or one [copy2], does for an entry. *)
Hypothesis IH : ∀ k c fs fs',
  ss !! k = Some c →
  lookup_path (src ++ [k]) fs = Some c →
  copy_entry (copytree depth) src dst (k, is_dir_node (Some c)) fs = inr fs' →
  (∀ q, apart q (dst ++ [k]) → lookup_path q fs' = lookup_path q fs) ∧
  (present c k (lookup_path (dst ++ [k]) fs') ∧ shallow depth c) ∧
  (∀ q, is_dir q fs = true → is_dir q fs' = true).

Lemma thread_entries l fs fs' :
  NoDup l.*1 →
  (∀ k b, (k, b) ∈ l → ∃ c, ss !! k = Some c ∧ b = is_dir_node (Some c)) →
  lookup_path src fs = Some (Dir ss) →
  thread (copy_entry (copytree depth) src dst) l fs = inr fs' →
  (∀ q, apart q dst → lookup_path q fs' = lookup_path q fs) ∧
  (∀ k, k ∉ l.*1 → lookup_path (dst ++ [k]) fs' = lookup_path (dst ++ [k]) fs) ∧
  (∀ k c, k ∈ l.*1 → ss !! k = Some c →
          present c k (lookup_path (dst ++ [k]) fs') ∧ shallow depth c) ∧
  (∀ q, is_dir q fs = true → is_dir q fs' = true).
Proof.
  revert fs. induction l as [|[k b] l IHl]; intros fs Hnd Hl Hsrc.
  - intros [= <-]. split_and!; try done. intros k c Hk. by apply elem_of_nil in Hk.
  - rewrite thread_cons.
    destruct (copy_entry (copytree depth) src dst (k, b) fs) as [|fs1] eqn:E1; [done|].
    intros Hrest. rewrite fmap_cons in Hnd. apply NoDup_cons in Hnd as [Hk Hnd]. simpl in Hk.
    destruct (Hl k b) as (c & Hc & ->); [left|].
    assert (Hsrck : lookup_path (src ++ [k]) fs = Some c).
    { by rewrite (lookup_path_snoc _ _ _ ss). }
    destruct (IH k c fs fs1 Hc Hsrck E1) as (F1 & [P1 S1] & D1).
    assert (Hsrc1 : lookup_path src fs1 = Some (Dir ss)).
    { rewrite F1; [done|]. by apply apart_app_r. }
    destruct (IHl fs1) as (F2 & N2 & P2 & D2); [done| |done|done|].
    { intros k' b' Hin. apply Hl. by right. }
    split_and!.
    + intros q Hq. rewrite F2 by done. apply F1. by apply apart_app_r.
    + intros k' Hk'. rewrite fmap_cons in Hk'. simpl in Hk'.
      apply not_elem_of_cons in Hk' as [Hne Hk']. rewrite N2 by done.
      apply F1. by apply apart_siblings.
    + intros k' c' Hin Hc'. rewrite fmap_cons in Hin. simpl in Hin.
      apply elem_of_cons in Hin as [->|Hin].
      * rewrite N2 by done. simplify_eq. by split.
      * by apply P2.
    + intros q Hq. by apply D2, D1.
Qed.
End Walk.

Lemma basename_snoc p k : basename (p ++ [k]) = k.
Proof. apply List.last_last. Qed.

Lemma copytree_spec depth : ∀ src dst fs fs' ss name,
  apart src dst →
  lookup_path src fs = Some (Dir ss) →
  copytree depth src dst fs = inr fs' →
  (∀ q, apart q dst → lookup_path q fs' = lookup_path q fs) ∧
  (present (Dir ss) name (lookup_path dst fs') ∧ shallow depth (Dir ss)) ∧
  (∀ q, is_dir q fs = true → is_dir q fs' = true).
Proof.
  induction depth as [|depth IHd]; intros src dst fs fs' ss name Hap Hsrc; [done|].
  rewrite copytree_S, (scandir_dir _ _ _ Hsrc).
  destruct (mkdir_p dst fs) as [|fs1] eqn:Emk; [done|]. intros Hth.
  assert (Hsrc1 : lookup_path src fs1 = Some (Dir ss)).
  { rewrite (mkdir_p_frame _ _ _ _ Emk); [done|apply Hap]. }
  assert (Hent : ∀ k c fs2 fs3,
    ss !! k = Some c →
    lookup_path (src ++ [k]) fs2 = Some c →
    copy_entry (copytree depth) src dst (k, is_dir_node (Some c)) fs2 = inr fs3 →
    (∀ q, apart q (dst ++ [k]) → lookup_path q fs3 = lookup_path q fs2) ∧
    (present c k (lookup_path (dst ++ [k]) fs3) ∧ shallow depth c) ∧
    (∀ q, is_dir q fs2 = true → is_dir q fs3 = true)).
  { intros k c fs2 fs3 Hc Hsrck. unfold copy_entry. simpl.
    destruct c as [data st|cs]; simpl.
    - intros (data' & st' & Hs & F & P & D)%copy2_spec.
      rewrite Hsrck in Hs. injection Hs as <- <-.
      rewrite basename_snoc in P.
      split_and!; try done. constructor.
    - intros Hc3. eapply IHd; [|done|done].
      by apply apart_app_l, apart_app_r. }
  destruct (thread_entries depth src dst ss Hap Hent
              (map (λ kv : string * node, (kv.1, is_dir_node (Some kv.2))) (map_to_list ss))
              fs1 fs') as (F & N & P & D);
    [by rewrite scandir_keys; apply NoDup_fst_map_to_list
    |apply scandir_entries|done|done|].
  assert (Hdir : is_dir dst fs' = true).
  { apply D. unfold is_dir. by rewrite (mkdir_p_lookup _ _ _ Emk). }
  destruct (is_dir_lookup _ _ Hdir) as [ds' Hds'].
  split_and!.
  - intros q Hq. rewrite F by done. eapply mkdir_p_frame; [done|apply Hq].
  - rewrite Hds'. constructor. intros k c Hc.
    rewrite <- (lookup_path_snoc dst k fs' ds' Hds'). apply (P k c); [|done].
    rewrite scandir_keys. apply list_elem_of_fmap. exists (k, c). split; [done|].
    by apply elem_of_map_to_list.
  - constructor. intros k c Hc. apply (P k c); [|done].
    rewrite scandir_keys. apply list_elem_of_fmap. exists (k, c). split; [done|].
    by apply elem_of_map_to_list.
  - intros q Hq. apply D. by eapply mkdir_p_keeps_dirs.
Qed.

Lemma copytree_settled depth : ∀ src dst fs ss name,
  apart src dst →
  lookup_path src fs = Some (Dir ss) →
  present (Dir ss) name (lookup_path dst fs) →
  shallow depth (Dir ss) →
  copytree depth src dst fs = inr fs.
Proof.
  induction depth as [|depth IHd]; intros src dst fs ss name Hap Hsrc Hpres Hsh;
    [by inversion Hsh|].
  inversion Hpres as [| |? ? ds Hch]; subst.
  inversion Hsh as [|? ? Hshc]; subst.
  assert (Hdst : lookup_path dst fs = Some (Dir ds)) by done.
  rewrite copytree_S, (scandir_dir _ _ _ Hsrc), (mkdir_p_dir _ _ _ Hdst).
  assert (∀ l, (∀ k b, (k, b) ∈ l → ∃ c, ss !! k = Some c ∧ b = is_dir_node (Some c)) →
               thread (copy_entry (copytree depth) src dst) l fs = inr fs) as Hth.
  { induction l as [|[k b] l IHl]; intros Hl; [done|].
    rewrite thread_cons. destruct (Hl k b) as (c & Hc & ->); [left|].
    assert (Hsrck : lookup_path (src ++ [k]) fs = Some c).
    { by rewrite (lookup_path_snoc _ _ _ ss). }
    assert (Hpk : present c k (lookup_path (dst ++ [k]) fs)).
    { rewrite (lookup_path_snoc _ _ _ ds) by done. by apply Hch. }
    assert (Hapk : apart (src ++ [k]) (dst ++ [k])) by by apply apart_app_l, apart_app_r.
    unfold copy_entry at 1. simpl.
    destruct c as [data st|cs]; simpl.
    - rewrite (copy2_settled _ _ _ data st); try done.
      + apply IHl. intros k' b' Hin. apply Hl. by right.
      + by rewrite basename_snoc.
    - rewrite (IHd _ _ _ cs k); try done.
      + apply IHl. intros k' b' Hin. apply Hl. by right.
      + by eapply Hshc. }
  apply Hth, scandir_entries.
Qed.

(** *** One source *)

Lemma parent_snoc p k : parent (p ++ [k]) = p.
Proof. apply removelast_last. Qed.

Lemma parent_prefix p : parent p `prefix_of` p.
Proof.
  destruct p as [|k p] using rev_ind; [done|]. rewrite parent_snoc. by apply prefix_app_r.
Qed.

Lemma parent_is_dir p fs x :
  p ≠ [] → lookup_path p fs = Some x → ∃ es, lookup_path (parent p) fs = Some (Dir es).
Proof.
  destruct p as [|k p _] using rev_ind; [done|]. intros _.
  rewrite parent_snoc, lookup_path_app.
  destruct (lookup_path p fs) as [[|es]|]; try done. eauto.
Qed.

Lemma apart_app_same r p q : apart p q → apart (r ++ p) (r ++ q).
Proof. intros [H1 H2]. split; intros H%prefix_app_inv; auto. Qed.

Lemma copy_with_structure_eq depth src dest_root rel_root rel fs :
  src = rel_root ++ rel →
  copy_with_structure depth src dest_root rel_root fs =
    if is_dir src fs then copytree depth src (dest_root ++ rel) fs
    else if is_file src fs then
      match mkdir_p (parent (dest_root ++ rel)) fs with
      | inl e => inl e
      | inr fs1 => copy2 src (dest_root ++ rel) fs1
      end
    else inr fs.
Proof. intros ->. unfold copy_with_structure. by rewrite relative_to_app. Qed.

Lemma copy_with_structure_spec depth src dest_root rel_root fs fs' :
  apart src dest_root →
  path_exists src fs = true →
  copy_with_structure depth src dest_root rel_root fs = inr fs' →
  ∃ rel tree,
    src = rel_root ++ rel ∧
    lookup_path src fs = Some tree ∧
    (∀ q, apart q (dest_root ++ rel) → lookup_path q fs' = lookup_path q fs) ∧
    (present tree (basename src) (lookup_path (dest_root ++ rel) fs') ∧
     shallow depth tree) ∧
    (∀ q, is_dir q fs = true → is_dir q fs' = true).
Proof.
  intros Hap Hex Hrun.
  destruct (relative_to src rel_root) as [e|rel] eqn:Erel.
  { unfold copy_with_structure in Hrun. by rewrite Erel in Hrun. }
  apply relative_to_inv in Erel. exists rel.
  rewrite (copy_with_structure_eq _ _ _ _ rel) in Hrun by done.
  unfold path_exists, is_dir, is_file in *.
  destruct (lookup_path src fs) as [[data st|ss]|] eqn:Esrc; [| |done]; simpl in Hrun.
  - destruct (mkdir_p _ fs) as [|fs1] eqn:Emk; [done|].
    assert (Hsrc1 : lookup_path src fs1 = Some (File data st)).
    { rewrite (mkdir_p_frame _ _ _ _ Emk); [done|]. intros Hp.
      eapply (apart_app_r _ _ rel) in Hap as [Hap _]. apply Hap.
      etrans; [done|apply parent_prefix]. }
    apply copy2_spec in Hrun as (data' & st' & Hs & F & P & D).
    rewrite Hsrc1 in Hs. injection Hs as <- <-.
    exists (File data st). split_and!; try done.
    + intros q Hq. rewrite F by done. eapply mkdir_p_frame; [done|].
      intros Hp. destruct Hq as [Hq _]. apply Hq. etrans; [done|apply parent_prefix].
    + constructor.
    + intros q Hq. apply D. by eapply mkdir_p_keeps_dirs.
  - exists (Dir ss). split; [done|]. split; [done|].
    eapply copytree_spec; [|done|done]. by apply apart_app_r.
Qed.

Lemma copy_with_structure_settled depth src dest_root rel_root fs :
  apart src dest_root →
  settled depth dest_root rel_root fs src →
  copy_with_structure depth src dest_root rel_root fs = inr fs.
Proof.
  intros Hap (rel & tree & Hrel & Hsrc & Hsh & Hpres).
  rewrite (copy_with_structure_eq _ _ _ _ rel) by done.
  unfold is_dir, is_file. rewrite Hsrc.
  assert (Hap' : apart src (dest_root ++ rel)) by by apply apart_app_r.
  destruct tree as [data st|ss]; simpl.
  - assert (∃ x, lookup_path (dest_root ++ rel) fs = Some x) as [x Hx].
    { inversion Hpres; eauto. }
    destruct (parent_is_dir _ _ _ (apart_not_nil _ _ Hap') Hx) as [es Hes].
    rewrite (mkdir_p_dir _ _ _ Hes). by eapply copy2_settled.
  - by eapply copytree_settled.
Qed.

Lemma last_cons_cons {A} (x y : A) l d : List.last (x :: y :: l) d = List.last (y :: l) d.
Proof. done. Qed.

Lemma present_below tree name dest q sub :
  present tree name dest →
  q ≠ [] →
  lookup_path q tree = Some sub →
  present sub (basename q) (dest ≫= lookup_path q).
Proof.
  revert tree name dest. induction q as [|k q IH]; intros tree name dest Hp Hq; [done|].
  destruct tree as [|ss]; [done|]. simpl lookup_path.
  destruct (ss !! k) as [c|] eqn:Ec; [|done]. simpl. intros Hsub.
  inversion Hp as [| |? ? ds Hch]; subst. simpl.
  specialize (Hch k c Ec).
  destruct q as [|k' q].
  - simpl in Hsub. injection Hsub as ->. unfold basename. simpl.
    by destruct (ds !! k).
  - unfold basename. rewrite last_cons_cons. by apply (IH c k).
Qed.

Lemma basename_app p q : q ≠ [] → basename (p ++ q) = basename q.
Proof.
  intros Hq. destruct q as [|k q _] using rev_ind; [done|].
  by rewrite app_assoc, !basename_snoc.
Qed.

(** A source that is settled stays settled when another one is copied. *)
Lemma settled_preserved depth src dest_root rel_root fs fs' x :
  apart src dest_root →
  apart x dest_root →
  path_exists src fs = true →
  copy_with_structure depth src dest_root rel_root fs = inr fs' →
  settled depth dest_root rel_root fs x →
  settled depth dest_root rel_root fs' x.
Proof.
  intros Hap Hapx Hex Hrun Hx.
  destruct (copy_with_structure_spec _ _ _ _ _ _ Hap Hex Hrun)
    as (rel & tree & Hrel & Hsrc & F & [P S] & D).
  destruct Hx as (relx & treex & Hrelx & Hlx & Hshx & Hpx).
  destruct (decide (relx `prefix_of` rel)) as [[q Hq]|Hn1].
  { (* the source copied lies at or below [x]: it was settled already *)
    assert (Hs : settled depth dest_root rel_root fs src).
    { exists rel, tree. split_and!; try done.
      destruct (decide (q = [])) as [->|Hne].
      - rewrite app_nil_r in Hq. by simplify_eq.
      - assert (Hsub : lookup_path q treex = Some tree).
        { rewrite Hrel, Hq, app_assoc, <- Hrelx, lookup_path_app, Hlx in Hsrc. done. }
        pose proof (present_below _ _ _ _ _ Hpx Hne Hsub) as Hb.
        rewrite <- lookup_path_app, <- app_assoc, <- Hq in Hb.
        replace (basename src) with (basename q); [done|].
        by rewrite Hrel, Hq, app_assoc, basename_app. }
    rewrite (copy_with_structure_settled _ _ _ _ _ Hap Hs) in Hrun.
    injection Hrun as <-. by exists relx, treex. }
  assert (Hlx' : lookup_path x fs' = Some treex).
  { rewrite F; [done|]. by apply apart_app_r. }
  exists relx, treex. split_and!; try done.
  destruct (decide (rel `prefix_of` relx)) as [[q Hq]|Hn2].
  - assert (Hne : q ≠ []).
    { intros ->. rewrite app_nil_r in Hq. subst relx. by destruct Hn1. }
    assert (Hsub : lookup_path q tree = Some treex).
    { rewrite Hrelx, Hq, app_assoc, <- Hrel, lookup_path_app, Hsrc in Hlx. done. }
    pose proof (present_below _ _ _ _ _ P Hne Hsub) as Hb.
    rewrite <- lookup_path_app, <- app_assoc, <- Hq in Hb.
    replace (basename x) with (basename q); [done|].
    by rewrite Hrelx, Hq, app_assoc, basename_app.
  - rewrite F; [done|]. by apply apart_app_same.
Qed.

(** *** The loop over the sources *)

Lemma copy_each_cons depth dest_root project_root src rest out fs :
  copy_each depth dest_root project_root (src :: rest) out fs =
    if path_exists src fs then
      match copy_with_structure depth src dest_root project_root fs with
      | inr fs' =>
          copy_each depth dest_root project_root rest (out ++ [Copied src]) fs'
      | inl e => (out, inl e)
      end
    else
      copy_each depth dest_root project_root rest (out ++ [SkippedMissing src]) fs.
Proof. done. Qed.

Lemma path_exists_frame p fs fs' :
  lookup_path p fs' = lookup_path p fs → path_exists p fs' = path_exists p fs.
Proof. unfold path_exists. by intros ->. Qed.

Section Run.
Variables (depth : nat) (dest_root project_root : path).

Lemma copy_each_spec sources : ∀ out fs out' fs',
  Forall (λ src, apart src dest_root) sources →
  copy_each depth dest_root project_root sources out fs = (out', inr fs') →
  (∀ q, apart q dest_root → lookup_path q fs' = lookup_path q fs) ∧
  (∀ q, is_dir q fs = true → is_dir q fs' = true) ∧
  (∀ x, apart x dest_root →
        settled depth dest_root project_root fs x →
        settled depth dest_root project_root fs' x) ∧
  (∀ src, src ∈ sources → path_exists src fs = true →
          settled depth dest_root project_root fs' src) ∧
  out' = out ++ map (notice_of fs) sources.
Proof.
  induction sources as [|src rest IH]; intros out fs out' fs' Hap.
  - intros [= <- <-]. split_and!; try done.
    + intros src Hin. by apply elem_of_nil in Hin.
    + by rewrite app_nil_r.
  - apply Forall_cons in Hap as [Hsrc Hrest]. rewrite copy_each_cons.
    destruct (path_exists src fs) eqn:Ex.
    + destruct (copy_with_structure _ _ _ _ fs) as [|fs1] eqn:Ecp; [done|].
      intros Hrun.
      destruct (IH _ _ _ _ Hrest Hrun) as (F & D & Pres & New & Hout).
      destruct (copy_with_structure_spec _ _ _ _ _ _ Hsrc Ex Ecp)
        as (rel & tree & Hrel & Hl & F1 & [P1 S1] & D1).
      assert (F1' : ∀ q, apart q dest_root → lookup_path q fs1 = lookup_path q fs).
      { intros q Hq. apply F1. by apply apart_app_r. }
      split_and!.
      * intros q Hq. rewrite F by done. by apply F1'.
      * intros q Hq. by apply D, D1.
      * intros x Hx Hs. apply Pres; [done|].
        exact (settled_preserved depth src dest_root project_root fs fs1 x Hsrc Hx Ex Ecp Hs).
      * intros s [->|Hin]%elem_of_cons Hs.
        -- apply Pres; [done|]. exists rel, tree. split_and!; try done.
           rewrite F1'; done.
        -- apply New; [done|]. rewrite Forall_forall in Hrest.
           rewrite (path_exists_frame s fs fs1); [done|]. apply F1'. by apply Hrest.
      * rewrite Hout. simpl. unfold notice_of at 2. rewrite Ex, <- app_assoc. simpl.
        do 2 f_equal. apply map_ext_in. intros s Hs%list_elem_of_In.
        unfold notice_of. rewrite Forall_forall in Hrest.
        rewrite (path_exists_frame s fs1 fs); [done|]. symmetry. apply F1'. by apply Hrest.
    + intros Hrun.
      destruct (IH _ _ _ _ Hrest Hrun) as (F & D & Pres & New & Hout).
      split_and!; try done.
      * intros s [->|Hin]%elem_of_cons Hs; [congruence|by apply New].
      * rewrite Hout. simpl. unfold notice_of at 2. by rewrite Ex, <- app_assoc.
Qed.

End Run.

(** *** The documented behaviour *)

Lemma collect_eq depth dest_root project_root sources fs :
  collect depth dest_root project_root sources fs =
    match mkdir_p dest_root fs with
    | inl e => ([], inl e)
    | inr fs0 =>
        match copy_each depth dest_root project_root sources [] fs0 with
        | (out, inr fs') => (out ++ [AllDone dest_root], inr fs')
        | (out, inl e) => (out, inl e)
        end
    end.
Proof. done. Qed.

Lemma notices_frame sources fs fs' :
  (∀ src, src ∈ sources → lookup_path src fs' = lookup_path src fs) →
  map (notice_of fs') sources = map (notice_of fs) sources.
Proof.
  intros H. apply map_ext_in. intros s Hs%list_elem_of_In. unfold notice_of.
  by rewrite (path_exists_frame s fs fs') by auto.
Qed.

Lemma collect_spec depth dest_root project_root sources fs out fs' :
  Forall (λ src, apart src dest_root) sources →
  collect depth dest_root project_root sources fs = (out, inr fs') →
  out = map (notice_of fs) sources ++ [AllDone dest_root] ∧
  is_dir dest_root fs' = true ∧
  (∀ src, src ∈ sources → lookup_path src fs' = lookup_path src fs) ∧
  (∀ src, src ∈ sources → path_exists src fs = true →
          settled depth dest_root project_root fs' src).
Proof.
  intros Hap. rewrite collect_eq.
  destruct (mkdir_p dest_root fs) as [|fs0] eqn:Emk; [done|].
  destruct (copy_each _ _ _ _ _ fs0) as [out0 [|fs1]] eqn:Erun; [done|].
  intros [= <- <-].
  destruct (copy_each_spec _ _ _ _ _ _ _ _ Hap Erun) as (F & D & _ & New & ->).
  rewrite Forall_forall in Hap.
  assert (F0 : ∀ src, src ∈ sources → lookup_path src fs0 = lookup_path src fs).
  { intros src Hin. eapply mkdir_p_frame; [done|]. apply (Hap src Hin). }
  split_and!.
  - simpl. f_equal. by apply notices_frame.
  - apply D. unfold is_dir. by rewrite (mkdir_p_lookup _ _ _ Emk).
  - intros src Hin. rewrite F by auto. auto.
  - intros src Hin Hex. apply New; [done|].
    by rewrite (path_exists_frame src fs fs0) by auto.
Qed.


Lemma present_lookup tree name dest q sub :
  present tree name dest →
  lookup_path q tree = Some sub →
  match sub with
  | Dir _ => is_dir_node (dest ≫= lookup_path q) = true
  | File data st =>
      is_dir_node (dest ≫= lookup_path q) = false →
      dest ≫= lookup_path q = Some (File data st)
  end.
Proof.
  intros Hp Hq.
  assert (∃ n, present sub n (dest ≫= lookup_path q)) as [n Hn].
  { destruct (decide (q = [])) as [->|Hne].
    - simpl in Hq. injection Hq as <-. exists name. by destruct dest.
    - eexists. by eapply present_below. }
  by inversion Hn.
Qed.

Lemma copy_each_existing depth dest_root project_root sources fs0 :
  ∀ out out1 fs out' fs',
    Forall (λ src, apart src dest_root) sources →
    (∀ src, src ∈ sources → path_exists src fs = path_exists src fs0) →
    copy_each depth dest_root project_root sources out fs = (out', inr fs') →
    ∃ out1',
      copy_each depth dest_root project_root
        (List.filter (λ src, path_exists src fs0) sources) out1 fs = (out1', inr fs').
Proof.
  induction sources as [|src rest IH]; intros out out1 fs out' fs' Hap Hex.
  - intros [= <- <-]. by eexists.
  - apply Forall_cons in Hap as [Hsrc Hrest]. rewrite copy_each_cons. simpl List.filter.
    rewrite <- (Hex src) by left.
    destruct (path_exists src fs) eqn:Ex.
    + rewrite copy_each_cons, Ex.
      destruct (copy_with_structure _ _ _ _ fs) as [|fs1] eqn:Ecp; [done|].
      apply IH; [done|]. intros s Hin. rewrite <- (Hex s) by by right.
      destruct (copy_with_structure_spec _ _ _ _ _ _ Hsrc Ex Ecp)
        as (rel & tree & _ & _ & F1 & _).
      apply path_exists_frame, F1, apart_app_r.
      rewrite Forall_forall in Hrest. auto.
    + apply IH; [done|]. intros s Hin. apply Hex. by right.
Qed.

(** C2, as the code has it.  When the destination root is neither inside nor
    above any source and the run completes: every source that exists lies
    below the project root, and whatever it holds is found under the
    destination root at the path with the project root stripped, a directory
    as a directory and a regular file with its data and metadata (unless a
    directory stands at the file's path); the notices are one per source,
    a skip notice for each missing one; and the file system is the one a
    run over the existing sources alone leaves. *)
Theorem collect_copies depth dest_root project_root sources fs out fs' :
  Forall (λ src, apart src dest_root) sources →
  collect depth dest_root project_root sources fs = (out, inr fs') →
  (∀ src, src ∈ sources → path_exists src fs = true →
     ∃ rel, src = project_root ++ rel ∧
       ∀ q,
         (is_dir (src ++ q) fs = true →
          is_dir (dest_root ++ rel ++ q) fs' = true) ∧
         (∀ data st,
            lookup_path (src ++ q) fs = Some (File data st) →
            is_dir (dest_root ++ rel ++ q) fs' = false →
            lookup_path (dest_root ++ rel ++ q) fs' = Some (File data st))) ∧
  out = map (notice_of fs) sources ++ [AllDone dest_root] ∧
  (∃ out1,
     collect depth dest_root project_root
       (List.filter (λ src, path_exists src fs) sources) fs = (out1, inr fs')).
Proof.
  intros Hap Hrun.
  destruct (collect_spec _ _ _ _ _ _ _ Hap Hrun) as (Hout & Hdir & F & Hs).
  split_and!; [|done|].
  - intros src Hin Hex.
    destruct (Hs src Hin Hex) as (rel & tree & Hrel & Hl & _ & Hp).
    exists rel. split; [done|]. intros q.
    rewrite F in Hl by done.
    unfold is_dir. rewrite (app_assoc dest_root), (lookup_path_app src q),
      (lookup_path_app (dest_root ++ rel) q), Hl. simpl.
    destruct (lookup_path q tree) as [[data st|es]|] eqn:Eq; try done.
    + split; [done|]. intros ? ? [= <- <-].
      apply (present_lookup _ _ _ _ _ Hp Eq).
    + split; [|done]. intros _. apply (present_lookup _ _ _ _ _ Hp Eq).
  - revert Hrun. rewrite !collect_eq.
    destruct (mkdir_p dest_root fs) as [|fs0] eqn:Emk; [done|].
    destruct (copy_each _ _ _ _ _ fs0) as [out0 [|fs1]] eqn:Erun; [done|].
    intros [= _ <-].
    destruct (copy_each_existing depth dest_root project_root sources fs [] [] fs0 out0 fs1)
      as [out1 ->]; [done| |done|by eexists].
    intros src Hin. apply path_exists_frame. eapply mkdir_p_frame; [done|].
    rewrite Forall_forall in Hap. apply (Hap src Hin).
Qed.

Lemma copy_each_app depth dest_root project_root before after out fs :
  copy_each depth dest_root project_root (before ++ after) out fs =
    match copy_each depth dest_root project_root before out fs with
    | (out', inr fs') => copy_each depth dest_root project_root after out' fs'
    | (out', inl e) => (out', inl e)
    end.
Proof.
  revert out fs. induction before as [|src rest IH]; intros out fs; [done|].
  rewrite <- app_comm_cons, !copy_each_cons.
  destruct (path_exists src fs); [|apply IH].
  destruct (copy_with_structure _ _ _ _ fs); [done|apply IH].
Qed.

(** C6.  A source that exists when its turn comes and does not lie below
    the project root makes [copy_with_structure] raise [ValueError]; nothing
    catches it: the run ends there, with the notices of the sources before
    it and a non-zero status. *)
Theorem outside_root_is_fatal depth dest_root project_root before src rest
    fs fs0 out fs1 :
  mkdir_p dest_root fs = inr fs0 →
  copy_each depth dest_root project_root before [] fs0 = (out, inr fs1) →
  path_exists src fs1 = true →
  ¬ project_root `prefix_of` src →
  copy_with_structure depth src dest_root project_root fs1 = inl ValueError ∧
  collect depth dest_root project_root (before ++ src :: rest) fs
    = (out, inl ValueError) ∧
  run_status (collect depth dest_root project_root (before ++ src :: rest) fs) = 1%Z.
Proof.
  intros Hmk Hbefore Hex Hout.
  assert (Hcp : copy_with_structure depth src dest_root project_root fs1 = inl ValueError).
  { unfold copy_with_structure. by rewrite relative_to_outside. }
  assert (Hrun : collect depth dest_root project_root (before ++ src :: rest) fs
                 = (out, inl ValueError)).
  { by rewrite collect_eq, Hmk, copy_each_app, Hbefore, copy_each_cons, Hex, Hcp. }
  split_and!; [done..|]. by rewrite Hrun.
Qed.





(** *** What a run leaves alone *)

Lemma mkdir_p_keeps_files p fs fs' q :
  mkdir_p p fs = inr fs' → is_file q fs = true → is_file q fs' = true.
Proof.
  unfold is_file.
  revert fs fs' q. induction p as [|k p IH]; intros [|es] fs' q; try done.
  - by intros [= <-].
  - rewrite mkdir_p_cons.
    destruct (mkdir_p p _) as [|child] eqn:E; [done|]. intros [= <-].
    destruct q as [|k' q]; [done|]. simpl.
    destruct (decide (k = k')) as [<-|Hk]; [|by rewrite lookup_insert_ne].
    rewrite lookup_insert_eq. simpl.
    destruct (es !! k) as [c|]; [|done]. simpl. by apply IH.
Qed.

Lemma write_file_keeps_files p fs fs' data st q :
  write_file p data st fs = inr fs' → is_file q fs = true → is_file q fs' = true.
Proof.
  unfold is_file.
  revert fs fs' q. induction p as [|k p IH]; intros [|es] fs' q; try done.
  rewrite write_file_cons. intros Hw.
  destruct q as [|k1 q]; [done|].
  change (is_file_node (es !! k1 ≫= lookup_path q) = true →
          is_file_node (lookup_path (k1 :: q) fs') = true).
  destruct p as [|k' p].
  - destruct (is_dir_node (es !! k)) eqn:Ed; [done|]. injection Hw as <-.
    change (is_file_node (es !! k1 ≫= lookup_path q) = true →
            is_file_node (<[k:=File data st]> es !! k1 ≫= lookup_path q) = true).
    destruct (decide (k = k1)) as [<-|Hk]; [|by rewrite lookup_insert_ne].
    rewrite lookup_insert_eq.
    destruct (es !! k) as [[|?]|]; try done; by destruct q.
  - destruct (es !! k) as [c|] eqn:Ec; [|done].
    destruct (write_file _ _ _ c) as [|c'] eqn:E; [done|]. injection Hw as <-.
    change (is_file_node (es !! k1 ≫= lookup_path q) = true →
            is_file_node (<[k:=c']> es !! k1 ≫= lookup_path q) = true).
    destruct (decide (k = k1)) as [<-|Hk]; [|by rewrite lookup_insert_ne].
    rewrite lookup_insert_eq, Ec. simpl option_bind. by apply (IH c).
Qed.

Lemma grown_refl dst fs : grown_at dst fs fs.
Proof. by split_and!. Qed.

Lemma grown_trans dst fs1 fs2 fs3 :
  grown_at dst fs1 fs2 → grown_at dst fs2 fs3 → grown_at dst fs1 fs3.
Proof.
  intros (F1 & D1 & R1) (F2 & D2 & R2). split_and!; [|by auto..].
  intros q Hq. by rewrite F2, F1.
Qed.

Lemma grown_below dst r fs fs' : grown_at (dst ++ r) fs fs' → grown_at dst fs fs'.
Proof.
  intros (F & D & R). split_and!; [|done..]. intros q Hq. by apply F, apart_app_r.
Qed.

Lemma mkdir_p_grown p dst fs fs' :
  p `prefix_of` dst → mkdir_p p fs = inr fs' → grown_at dst fs fs'.
Proof.
  intros Hp Hmk. split_and!.
  - intros q [Hq _]. eapply mkdir_p_frame; [done|]. intros Hqp. apply Hq. by etrans.
  - intros q. by eapply mkdir_p_keeps_dirs.
  - intros q. by eapply mkdir_p_keeps_files.
Qed.

Lemma copy2_grown src dst fs fs' : copy2 src dst fs = inr fs' → grown_at dst fs fs'.
Proof.
  intros Hcp. destruct (copy2_spec _ _ _ _ Hcp) as (data & st & _ & F & _ & D).
  split_and!; [done..|].
  revert Hcp. rewrite copy2_eq. cbv zeta.
  destruct (lookup_path src fs) as [[data' st'|]|]; try done.
  destruct (decide _); [done|]. intros Hw q. by eapply write_file_keeps_files.
Qed.

Lemma thread_grown {A} (f : A → node → exn + node) dst xs :
  (∀ x fs fs', f x fs = inr fs' → grown_at dst fs fs') →
  ∀ fs fs', thread f xs fs = inr fs' → grown_at dst fs fs'.
Proof.
  intros Hf. induction xs as [|x xs IH]; intros fs fs'.
  - intros [= <-]. apply grown_refl.
  - rewrite thread_cons. destruct (f x fs) as [|fs1] eqn:E; [done|].
    intros Hrest. eapply grown_trans; eauto.
Qed.

Lemma copytree_grown depth : ∀ src dst fs fs',
  copytree depth src dst fs = inr fs' → grown_at dst fs fs'.
Proof.
  induction depth as [|depth IH]; intros src dst fs fs'; [done|].
  rewrite copytree_S. destruct (scandir src fs) as [|entries]; [done|].
  destruct (mkdir_p dst fs) as [|fs1] eqn:Emk; [done|]. intros Hth.
  eapply grown_trans; [by eapply mkdir_p_grown|].
  eapply thread_grown; [|done].
  intros [k b] fs2 fs3. unfold copy_entry. simpl.
  destruct b; intros H; eapply grown_below; eauto using copy2_grown.
Qed.

Lemma parent_app_prefix p q : parent (p ++ q) `prefix_of` p ++ q.
Proof. apply parent_prefix. Qed.

Lemma copy_with_structure_grown_at depth src dest_root rel_root rel fs fs' :
  src = rel_root ++ rel →
  copy_with_structure depth src dest_root rel_root fs = inr fs' →
  grown_at (dest_root ++ rel) fs fs'.
Proof.
  intros Hrel. rewrite (copy_with_structure_eq _ _ _ _ rel) by done.
  destruct (is_dir src fs); [by apply copytree_grown|].
  destruct (is_file src fs); [|intros [= <-]; apply grown_refl].
  destruct (mkdir_p _ fs) as [|fs1] eqn:Emk; [done|]. intros Hcp.
  eapply grown_trans.
  - eapply mkdir_p_grown; [apply parent_prefix|done].
  - by eapply copy2_grown.
Qed.

Lemma copy_with_structure_grown depth src dest_root rel_root fs fs' :
  copy_with_structure depth src dest_root rel_root fs = inr fs' →
  grown_at dest_root fs fs'.
Proof.
  destruct (relative_to src rel_root) as [e|rel] eqn:Erel.
  { unfold copy_with_structure. by rewrite Erel. }
  apply relative_to_inv in Erel. intros H.
  eapply grown_below. by eapply copy_with_structure_grown_at.
Qed.

Lemma copy_each_grown depth dest_root project_root sources :
  ∀ out fs out' fs',
    copy_each depth dest_root project_root sources out fs = (out', inr fs') →
    grown_at dest_root fs fs'.
Proof.
  induction sources as [|src rest IH]; intros out fs out' fs'.
  - intros [= _ <-]. apply grown_refl.
  - rewrite copy_each_cons. destruct (path_exists src fs); [|apply IH].
    destruct (copy_with_structure _ _ _ _ fs) as [|fs1] eqn:E; [done|].
    intros Hrest. eapply grown_trans; [by eapply copy_with_structure_grown|].
    by eapply IH.
Qed.

Lemma collect_grown depth dest_root project_root sources fs out fs' :
  collect depth dest_root project_root sources fs = (out, inr fs') →
  grown_at dest_root fs fs'.
Proof.
  rewrite collect_eq.
  destruct (mkdir_p dest_root fs) as [|fs0] eqn:Emk; [done|].
  destruct (copy_each _ _ _ _ _ fs0) as [out0 [|fs1]] eqn:Erun; [done|].
  intros [= _ <-]. eapply grown_trans.
  - by eapply mkdir_p_grown.
  - by eapply copy_each_grown.
Qed.


(** A run that completes has removed nothing: what was a directory is a
    directory, what was a regular file is a regular file. *)
Theorem run_removes_nothing depth dest_root project_root sources fs out fs' q :
  collect depth dest_root project_root sources fs = (out, inr fs') →
  (is_dir q fs = true → is_dir q fs' = true) ∧
  (is_file q fs = true → is_file q fs' = true).
Proof.
  intros Hrun. destruct (collect_grown _ _ _ _ _ _ _ Hrun) as (_ & D & R). auto.
Qed.

(** *** What can go wrong *)

Lemma relative_to_error p root e :
  relative_to p root = inl e → e = ValueError ∧ ¬ root `prefix_of` p.
Proof.
  revert p. induction root as [|r root IH]; intros [|c p]; simpl; try done.
  - intros [= <-]. split; [done|]. by intros [k Hk].
  - destruct (String.eqb_spec r c) as [->|Hne].
    + intros [-> Hn]%IH. split; [done|]. intros Hp. by apply Hn, (prefix_cons_inv_2 c c).
    + intros [= <-]. split; [done|]. by intros Hp%prefix_cons_inv_1.
Qed.

Lemma mkdir_p_error p fs e : mkdir_p p fs = inl e → e = OSError.
Proof.
  revert fs. induction p as [|k p IH]; intros [|es]; try done;
    try (by intros [= <-]).
  rewrite mkdir_p_cons. destruct (mkdir_p p _) as [e'|] eqn:E; [|done].
  intros [= <-]. by eapply IH.
Qed.

Lemma write_file_error p data st fs e :
  write_file p data st fs = inl e → e = OSError.
Proof.
  revert fs. induction p as [|k p IH]; intros [|es]; try done;
    try (by intros [= <-]).
  rewrite write_file_cons. destruct p as [|k' p].
  - destruct (is_dir_node _); [by intros [= <-]|done].
  - destruct (es !! k) as [c|]; [|by intros [= <-]].
    destruct (write_file _ _ _ c) as [e'|] eqn:E; [|done].
    intros [= <-]. by eapply IH.
Qed.

Lemma copy2_error src dst fs e : copy2 src dst fs = inl e → e = OSError.
Proof.
  rewrite copy2_eq. cbv zeta.
  destruct (lookup_path src fs) as [[data st|]|]; try by intros [= <-].
  destruct (decide _); [by intros [= <-]|apply write_file_error].
Qed.

Lemma scandir_error src fs e : scandir src fs = inl e → e = OSError.
Proof.
  unfold scandir. destruct (lookup_path src fs) as [[|]|]; try done; by intros [= <-].
Qed.

Lemma thread_error {A} (f : A → node → exn + node) (P : exn → Prop) xs :
  (∀ x fs e, f x fs = inl e → P e) →
  ∀ fs e, thread f xs fs = inl e → P e.
Proof.
  intros Hf. induction xs as [|x xs IH]; intros fs e; [done|].
  rewrite thread_cons. destruct (f x fs) as [e'|fs1] eqn:E.
  - intros [= <-]. eauto.
  - apply IH.
Qed.

Lemma copytree_error depth : ∀ src dst fs e,
  copytree depth src dst fs = inl e → fs_error e.
Proof.
  induction depth as [|depth IH]; intros src dst fs e.
  { intros [= <-]. by right. }
  rewrite copytree_S. destruct (scandir src fs) as [e'|entries] eqn:Es.
  { intros [= <-]. left. by eapply scandir_error. }
  destruct (mkdir_p dst fs) as [e'|fs1] eqn:Emk.
  { intros [= <-]. left. by eapply mkdir_p_error. }
  apply thread_error. intros [k b] fs2 e'. unfold copy_entry. simpl.
  destruct b; [apply IH|]. intros ->%copy2_error. by left.
Qed.

Lemma copy_with_structure_error depth src dest_root rel_root fs e :
  copy_with_structure depth src dest_root rel_root fs = inl e →
  (e = ValueError ∧ ¬ rel_root `prefix_of` src) ∨
  (fs_error e ∧ rel_root `prefix_of` src).
Proof.
  destruct (relative_to src rel_root) as [e'|rel] eqn:Erel.
  { unfold copy_with_structure. rewrite Erel. intros [= <-].
    left. by apply relative_to_error. }
  apply relative_to_inv in Erel.
  rewrite (copy_with_structure_eq _ _ _ _ rel) by done. intros H. right.
  split; [|subst src; by apply prefix_app_r].
  destruct (is_dir src fs); [by eapply copytree_error|].
  destruct (is_file src fs); [|done].
  destruct (mkdir_p _ fs) as [e'|fs1] eqn:Emk.
  - injection H as <-. left. by eapply mkdir_p_error.
  - left. by eapply copy2_error.
Qed.

(** [copy_with_structure] raises [ValueError] exactly for a source that is
    not below the root it is given, whatever the file system holds: the path
    is looked at before the file system is. *)
Theorem value_error_iff_outside_root depth src dest_root rel_root fs :
  copy_with_structure depth src dest_root rel_root fs = inl ValueError ↔
  ¬ rel_root `prefix_of` src.
Proof.
  split.
  - intros [[_ H]|[[H|H] _]]%copy_with_structure_error; done.
  - intros H. unfold copy_with_structure. by rewrite relative_to_outside.
Qed.




(** *** A destination that is in the way *)

Lemma mkdir_p_blocked p dst fs :
  p `prefix_of` dst → is_file p fs = true → mkdir_p dst fs = inl OSError.
Proof.
  unfold is_file. intros [r ->]. revert fs.
  induction p as [|k p IH]; intros [data st|es]; try done.
  - by destruct r.
  - simpl lookup_path. intros H. rewrite <- app_comm_cons, mkdir_p_cons.
    destruct (es !! k) as [c|]; [|done]. simpl in *. by rewrite IH.
Qed.

Lemma mkdir_p_free dst fs e :
  mkdir_p dst fs = inl e → ∃ p, p `prefix_of` dst ∧ is_file p fs = true.
Proof.
  unfold is_file. revert fs e. induction dst as [|k dst IH]; intros [data st|es] e.
  - intros _. by exists [].
  - done.
  - intros _. exists []. split; [apply prefix_nil|done].
  - rewrite mkdir_p_cons. destruct (mkdir_p dst _) as [e'|] eqn:E; [|done].
    intros _. destruct (es !! k) as [c|] eqn:Ec; simpl in E.
    + destruct (IH _ _ E) as (p & Hp & Hf). exists (k :: p).
      split; [by apply prefix_cons|]. simpl. by rewrite Ec.
    + destruct (IH _ _ E) as (p & Hp & Hf). destruct p; [done|].
      simpl in Hf. by rewrite lookup_empty in Hf.
Qed.

(** The run stops at its first step, with [OSError] and before any notice,
    exactly when a regular file stands at the destination root or on the
    way to it. *)
Theorem file_in_the_way_stops_the_run depth dest_root project_root sources fs :
  (∃ p, p `prefix_of` dest_root ∧ is_file p fs = true) ↔
  mkdir_p dest_root fs = inl OSError ∧
  collect depth dest_root project_root sources fs = ([], inl OSError).
Proof.
  rewrite collect_eq. split.
  - intros (p & Hp & Hf). by rewrite (mkdir_p_blocked p).
  - intros [H _]. by eapply mkdir_p_free.
Qed.

(** *** A file whose place is taken by a directory *)

Lemma write_file_onto_dir p data st fs :
  is_dir p fs = true → write_file p data st fs = inl OSError.
Proof.
  unfold is_dir. revert fs. induction p as [|k p IH]; intros [|es]; try done.
  simpl lookup_path. rewrite write_file_cons. destruct p as [|k' p].
  - destruct (es !! k) as [[|]|]; done.
  - destruct (es !! k) as [c|]; [|done]. simpl option_bind. intros H.
    by rewrite (IH c).
Qed.

Lemma write_file_ok d k data st fs es :
  lookup_path d fs = Some (Dir es) →
  is_dir_node (es !! k) = false →
  ∃ fs', write_file (d ++ [k]) data st fs = inr fs'.
Proof.
  revert fs. induction d as [|k0 d IH]; intros fs.
  - intros [= ->] Hk. simpl app. rewrite write_file_cons, Hk. eauto.
  - destruct fs as [|es0]; [done|]. simpl lookup_path.
    destruct (es0 !! k0) as [c|] eqn:Ec; [|done]. simpl option_bind.
    intros Hd Hk. destruct (IH c Hd Hk) as [c' Hc'].
    rewrite <- app_comm_cons, write_file_cons, Ec, Hc'.
    destruct (d ++ [k]) eqn:E; [by destruct d|]. eauto.
Qed.

(** When a directory already stands where a file source is to go, the file
    is not put at that path but inside the directory, under its own name,
    and the directory stays; when that name is itself taken by a directory,
    the call fails with [OSError]. *)
Theorem file_lands_inside_directory depth src dest_root rel_root rel fs data st :
  src = rel_root ++ rel →
  lookup_path src fs = Some (File data st) →
  ¬ dest_root `prefix_of` src →
  is_dir (dest_root ++ rel) fs = true →
  let inside := (dest_root ++ rel) ++ [basename src] in
  if is_dir inside fs
  then copy_with_structure depth src dest_root rel_root fs = inl OSError
  else ∃ fs',
    copy_with_structure depth src dest_root rel_root fs = inr fs' ∧
    lookup_path inside fs' = Some (File data st) ∧
    is_dir (dest_root ++ rel) fs' = true.
Proof.
  intros Hrel Hsrc Hout Hdir inside.
  rewrite (copy_with_structure_eq _ _ _ _ rel) by done.
  assert (Hd : is_dir src fs = false) by (unfold is_dir; by rewrite Hsrc).
  assert (Hf : is_file src fs = true) by (unfold is_file; by rewrite Hsrc).
  rewrite Hd, Hf.
  destruct (is_dir_lookup _ _ Hdir) as [es Hes].
  assert (Hmk : mkdir_p (parent (dest_root ++ rel)) fs = inr fs).
  { destruct (decide (dest_root ++ rel = [])) as [He|Hne].
    - rewrite He in *. by apply (mkdir_p_dir _ _ es).
    - destruct (parent_is_dir _ _ _ Hne Hes) as [ps Hps]. by apply (mkdir_p_dir _ _ ps). }
  rewrite Hmk, copy2_eq, Hdir, Hsrc. cbv zeta. fold inside.
  rewrite decide_False.
  2:{ intros E. apply Hout. rewrite E. unfold inside. rewrite <- app_assoc.
      by apply prefix_app_r. }
  destruct (is_dir inside fs) eqn:Ein.
  - by apply write_file_onto_dir.
  - destruct (write_file_ok (dest_root ++ rel) (basename src) data st fs es) as [fs' Hw].
    + done.
    + unfold is_dir, inside in Ein. by rewrite (lookup_path_snoc _ _ _ es) in Ein.
    + exists fs'. split_and!; [done|by eapply write_file_lookup|].
      by eapply write_file_keeps_dirs.
Qed.

(** *** What a copy leaves in the destination *)

Lemma thread_frame {A} (f : A → node → exn + node) q xs :
  (∀ x, x ∈ xs → ∀ fs fs', f x fs = inr fs' → lookup_path q fs' = lookup_path q fs) →
  ∀ fs fs', thread f xs fs = inr fs' → lookup_path q fs' = lookup_path q fs.
Proof.
  induction xs as [|x xs IH]; intros Hf fs fs'.
  - by intros [= <-].
  - rewrite thread_cons. destruct (f x fs) as [|fs1] eqn:E; [done|].
    intros Hrest. rewrite (IH (λ y Hy, Hf y (list_elem_of_further _ _ _ Hy)) _ _ Hrest).
    eapply Hf; [left|done].
Qed.

Lemma copytree_keeps depth src dst fs fs' ss k r :
  lookup_path src fs = Some (Dir ss) →
  ss !! k = None →
  copytree depth src dst fs = inr fs' →
  lookup_path (dst ++ k :: r) fs' = lookup_path (dst ++ k :: r) fs.
Proof.
  intros Hsrc Hk. destruct depth as [|depth]; [done|].
  rewrite copytree_S, (scandir_dir _ _ _ Hsrc).
  destruct (mkdir_p dst fs) as [|fs1] eqn:Emk; [done|]. intros Hth.
  rewrite <- (mkdir_p_frame _ _ _ _ Emk).
  2:{ intros [t Ht]. rewrite <- app_assoc in Ht.
      apply (f_equal length) in Ht. rewrite !length_app in Ht. simpl in Ht. lia. }
  eapply thread_frame; [|exact Hth].
  intros [k' b] Hin fs2 fs3 Hcp.
  destruct (scandir_entries _ _ _ Hin) as (c & Hc & _).
  assert (Hne : k ≠ k') by (intros ->; congruence).
  assert (Hg : grown_at (dst ++ [k']) fs2 fs3).
  { revert Hcp. unfold copy_entry. simpl.
    destruct b; [apply copytree_grown|apply copy2_grown]. }
  apply Hg. rewrite (cons_middle k dst r), app_assoc.
  by apply apart_app_l, apart_siblings.
Qed.

(** Copying a directory merges it into the destination: whatever the
    destination directory holds under a name the source directory does not
    have is left as it was. *)
Theorem merge_keeps_other_entries depth src dest_root rel_root rel fs fs' ss k r :
  src = rel_root ++ rel →
  lookup_path src fs = Some (Dir ss) →
  ss !! k = None →
  copy_with_structure depth src dest_root rel_root fs = inr fs' →
  lookup_path ((dest_root ++ rel) ++ k :: r) fs'
    = lookup_path ((dest_root ++ rel) ++ k :: r) fs.
Proof.
  intros Hrel Hsrc Hk. rewrite (copy_with_structure_eq _ _ _ _ rel) by done.
  unfold is_dir. rewrite Hsrc. simpl. by apply copytree_keeps with ss.
Qed.



(** *** The script with its own paths *)







(** *** The theorems at concrete inputs *)



Lemma collect_copies_witness :
  ∃ fs',
    collect 10 ["d"] ["p"] [["p"; "notes.md"]; ["p"; "missing"]; ["p"; "src"]]
      small_project
      = ([Copied ["p"; "notes.md"]; SkippedMissing ["p"; "missing"];
          Copied ["p"; "src"]; AllDone ["d"]], inr fs') ∧
    lookup_path ["d"; "src"; "lib"; "util.c"] fs' = Some (File "util" mode_644).
Proof.
  pose (fs' := match (collect 10 ["d"] ["p"]
                        [["p"; "notes.md"]; ["p"; "missing"]; ["p"; "src"]]
                        small_project).2 with
               | inr x => x | inl _ => small_project end).
  assert (E : collect 10 ["d"] ["p"]
                [["p"; "notes.md"]; ["p"; "missing"]; ["p"; "src"]] small_project
              = ([Copied ["p"; "notes.md"]; SkippedMissing ["p"; "missing"];
                  Copied ["p"; "src"]; AllDone ["d"]], inr fs')).
  { vm_compute. reflexivity. }
  assert (Hd : is_dir ["d"; "src"; "lib"; "util.c"] fs' = false).
  { vm_compute. reflexivity. }
  clearbody fs'. exists fs'. split; [exact E|].
  destruct (collect_copies 10 ["d"] ["p"]
              [["p"; "notes.md"]; ["p"; "missing"]; ["p"; "src"]]
              small_project
              [Copied ["p"; "notes.md"]; SkippedMissing ["p"; "missing"];
               Copied ["p"; "src"]; AllDone ["d"]] fs') as (Hcopied & _ & _).
  - repeat constructor; by intros [k Hk].
  - exact E.
  - destruct (Hcopied ["p"; "src"]) as (rel & Hrel & Hq).
    + do 2 apply list_elem_of_further. apply list_elem_of_here.
    + vm_compute. reflexivity.
    + injection Hrel as <-.
      apply (Hq ["lib"; "util.c"]).
      * vm_compute. reflexivity.
      * exact Hd.
Defined.

(** C2 as stated fails: a source that stops the run keeps the sources after
    it from being copied. *)
Lemma later_sources_lost_on_abort :
  ¬ (∀ depth dest_root project_root sources fs src rel,
       src ∈ sources → src = project_root ++ rel → path_exists src fs = true →
       ∃ out fs',
         collect depth dest_root project_root sources fs = (out, inr fs') ∧
         path_exists (dest_root ++ rel) fs' = true).
Proof.
  intros H.
  assert (E : collect 10 ["d"] ["p"] [["q"; "x"]; ["p"; "notes.md"]] small_project
              = ([], inl ValueError)) by (vm_compute; reflexivity).
  destruct (H 10 ["d"] ["p"] [["q"; "x"]; ["p"; "notes.md"]] small_project
              ["p"; "notes.md"] ["notes.md"]) as (out & fs' & Hrun & _).
  - set_solver.
  - reflexivity.
  - vm_compute. reflexivity.
  - rewrite E in Hrun. discriminate Hrun.
Qed.

Lemma outside_root_is_fatal_witness :
  collect 10 ["d"] ["p"] [["p"; "notes.md"]; ["q"; "x"]; ["p"; "src"]] small_project
    = ([Copied ["p"; "notes.md"]], inl ValueError).
Proof.
  pose (fs0 := match mkdir_p ["d"] small_project with
               | inr x => x | inl _ => small_project end).
  assert (Emk : mkdir_p ["d"] small_project = inr fs0) by (vm_compute; reflexivity).
  pose (fs1 := match (copy_each 10 ["d"] ["p"] [["p"; "notes.md"]] [] fs0).2 with
               | inr x => x | inl _ => fs0 end).
  assert (Eb : copy_each 10 ["d"] ["p"] [["p"; "notes.md"]] [] fs0
               = ([Copied ["p"; "notes.md"]], inr fs1)) by (vm_compute; reflexivity).
  assert (Hex : path_exists ["q"; "x"] fs1 = true) by (vm_compute; reflexivity).
  clearbody fs1. clearbody fs0.
  apply (outside_root_is_fatal 10 ["d"] ["p"] [["p"; "notes.md"]] ["q"; "x"]
           [["p"; "src"]] small_project fs0 _ fs1 Emk Eb Hex).
  by intros [k Hk].
Defined.


(** *** The further properties at concrete inputs *)


Lemma run_removes_nothing_witness :
  ∃ fs',
    collect 10 ["d"] ["p"] [["p"; "notes.md"]; ["p"; "src"]] used_destination
      = ([Copied ["p"; "notes.md"]; Copied ["p"; "src"]; AllDone ["d"]], inr fs') ∧
    is_dir ["d"; "notes.md"] fs' = true ∧
    is_file ["d"; "src"; "old.c"] fs' = true.
Proof.
  pose (fs' := match (collect 10 ["d"] ["p"] [["p"; "notes.md"]; ["p"; "src"]]
                        used_destination).2 with
               | inr x => x | inl _ => used_destination end).
  assert (E : collect 10 ["d"] ["p"] [["p"; "notes.md"]; ["p"; "src"]] used_destination
              = ([Copied ["p"; "notes.md"]; Copied ["p"; "src"]; AllDone ["d"]], inr fs'))
    by (vm_compute; reflexivity).
  clearbody fs'. exists fs'. split; [exact E|]. split.
  - apply (run_removes_nothing _ _ _ _ _ _ _ ["d"; "notes.md"] E). reflexivity.
  - apply (run_removes_nothing _ _ _ _ _ _ _ ["d"; "src"; "old.c"] E). reflexivity.
Defined.

Lemma value_error_iff_outside_root_witness :
  copy_with_structure 10 ["q"; "x"] ["d"] ["p"] small_project = inl ValueError.
Proof.
  apply (value_error_iff_outside_root 10 ["q"; "x"] ["d"] ["p"] small_project).
  by intros [k Hk].
Defined.


Lemma file_in_the_way_stops_the_run_witness :
  is_file ["h"; "Desktop"] blocked_home = true ∧
  collect 10 ["h"; "Desktop"; "context-persistence-files"] ["p"] [["p"; "notes.md"]]
    blocked_home = ([], inl OSError).
Proof.
  split; [reflexivity|].
  apply (file_in_the_way_stops_the_run 10
           ["h"; "Desktop"; "context-persistence-files"] ["p"] [["p"; "notes.md"]]
           blocked_home).
  exists ["h"; "Desktop"]. split; [by exists ["context-persistence-files"]|reflexivity].
Defined.

Lemma file_lands_inside_directory_witness :
  ∃ fs',
    copy_with_structure 10 ["p"; "notes.md"] ["d"] ["p"] used_destination = inr fs' ∧
    lookup_path ["d"; "notes.md"; "notes.md"] fs' = Some (File "notes" mode_644) ∧
    is_dir ["d"; "notes.md"] fs' = true.
Proof.
  assert (E : is_dir ((["d"] ++ ["notes.md"]) ++ [basename ["p"; "notes.md"]])
                used_destination = false) by (vm_compute; reflexivity).
  pose proof (file_lands_inside_directory 10 ["p"; "notes.md"] ["d"] ["p"] ["notes.md"]
                used_destination "notes" mode_644) as H.
  cbv zeta in H. rewrite E in H. apply H.
  - reflexivity.
  - vm_compute. reflexivity.
  - by intros [k Hk].
  - vm_compute. reflexivity.
Defined.

Lemma merge_keeps_other_entries_witness :
  ∃ fs',
    copy_with_structure 10 ["p"; "src"] ["d"] ["p"] used_destination = inr fs' ∧
    lookup_path ["d"; "src"; "old.c"] fs' = Some (File "old" mode_644).
Proof.
  pose (fs' := match copy_with_structure 10 ["p"; "src"] ["d"] ["p"] used_destination with
               | inr x => x | inl _ => used_destination end).
  assert (E : copy_with_structure 10 ["p"; "src"] ["d"] ["p"] used_destination = inr fs')
    by (vm_compute; reflexivity).
  clearbody fs'. exists fs'. split; [exact E|].
  transitivity (lookup_path ((["d"] ++ ["src"]) ++ ["old.c"]) used_destination);
    [|vm_compute; reflexivity].
  apply (merge_keeps_other_entries 10 ["p"; "src"] ["d"] ["p"] ["src"]
           used_destination fs'
           (list_to_map [("main.c", File "int main" mode_644)]) "old.c" []
           eq_refl).
  - vm_compute. reflexivity.
  - vm_compute. reflexivity.
  - exact E.
Defined.



End Collector.
